(** * listMissingLibs: the dependency checker of [list_missing_libs.py]

    A shallow embedding of [BrokenFinder] (scanner, metadata extractor,
    work queue with its single worker thread, and the final set
    difference), followed by the properties of the specification that
    were checked against it.

    Conventions.
    - A Python [str] is the [string] of the bytes of its UTF-8
      encoding (a byte that does not decode stands for itself).  The
      pattern below only tests for ASCII characters, for newlines and
      for decimal digits, so it reads the same on the encoding: a byte
      is a newline or part of [.so] exactly when the character is, and
      [\d] accepts the ASCII digits and the encodings of the other
      Unicode decimal digits, which the [World] lists.
    - The file system, the environment and pyelftools are not code of
      this program: a [World] records what [os.walk], [os.path.islink],
      [os.path.exists], [os.environ], [open] and [ELFFile] answer, and
      which characters Python's Unicode tables class as decimal digits.
    - [set] is [gset string], [defaultdict(list)] is
      [gmap string (list string)] read with the total lookup [!!!]. *)

From Stdlib Require Import Ascii String.
From stdpp Require Import base gmap strings list.

#[local] Set Warnings "-clear-no-such-hyp".

(** ** Regular expressions, as far as [somatching] uses them *)

Module Re.

Inductive regex : Type :=
| Eps
| Chr (c : ascii)          (* a literal character, e.g. [\.] or [s] *)
| Dot                      (* [.] : any character but a newline *)
| Digit                    (* [\d] : one Unicode decimal digit *)
| EndZ                     (* [\Z] : only at the end of the string *)
| Cat (r1 r2 : regex)
| Alt (r1 r2 : regex)
| Star (r : regex).

Definition Plus (r : regex) : regex := Cat r (Star r).

Fixpoint Lit (s : string) : regex :=
  match s with
  | EmptyString => Eps
  | String c s' => Cat (Chr c) (Lit s')
  end.

Definition newline : ascii := "010"%char.

Definition is_newline (c : ascii) : bool := Ascii.eqb c newline.

(** The ASCII digits. *)
Definition is_digit (c : ascii) : bool :=
  Nat.leb 48 (nat_of_ascii c) && Nat.leb (nat_of_ascii c) 57.

(** What [\d] accepts: [t] is the encoding of one decimal digit.  On
    one byte these are the ASCII digits; [dec] says which encodings of
    two to four bytes are decimal digits in Python's Unicode tables. *)
Definition is_decimal (dec : string -> bool) (t : string) : bool :=
  match t with
  | String a EmptyString => is_digit a
  | String _ (String _ EmptyString)
  | String _ (String _ (String _ EmptyString))
  | String _ (String _ (String _ (String _ EmptyString))) => dec t
  | _ => false
  end.

(** [\d] in front of the continuation [k]: one character, of one to
    four bytes. *)
Definition digit_token (dec : string -> bool) (k : string -> bool) (s : string) : bool :=
  match s with
  | String a s1 =>
      is_decimal dec (String a "") && k s1
      || match s1 with
         | String b s2 =>
             is_decimal dec (String a (String b "")) && k s2
             || match s2 with
                | String c s3 =>
                    is_decimal dec (String a (String b (String c ""))) && k s3
                    || match s3 with
                       | String d s4 =>
                           is_decimal dec (String a (String b (String c (String d ""))))
                           && k s4
                       | EmptyString => false
                       end
                | EmptyString => false
                end
         | EmptyString => false
         end
  | EmptyString => false
  end.

(** One repetition loop: [m1] matches the repeated expression, [n]
    bounds the number of rounds.  A round is tried first (greedy) and
    only counts when it consumes something. *)
Definition star_loop (m1 : (string -> bool) -> string -> bool) (k : string -> bool)
  : nat -> string -> bool :=
  fix loop (n : nat) (s : string) {struct n} : bool :=
    match n with
    | O => k s
    | S n' =>
        m1 (fun s' => if Nat.ltb (String.length s') (String.length s)
                      then loop n' s' else false) s
        || k s
    end.

(** Backtracking matcher in continuation-passing style: [mtch r k s]
    holds when [r] can consume a prefix of [s] such that the
    continuation [k] accepts the rest.  [.] is only used under a
    repetition, where consuming bytes or characters comes to the same. *)
Fixpoint mtch (dec : string -> bool) (r : regex) (k : string -> bool) (s : string)
    {struct r} : bool :=
  match r with
  | Eps => k s
  | Chr c =>
      match s with
      | String a s' => if Ascii.eqb a c then k s' else false
      | EmptyString => false
      end
  | Dot =>
      match s with
      | String a s' => if is_newline a then false else k s'
      | EmptyString => false
      end
  | Digit => digit_token dec k s
  | EndZ =>
      match s with
      | EmptyString => k s
      | String _ _ => false
      end
  | Cat r1 r2 => mtch dec r1 (mtch dec r2 k) s
  | Alt r1 r2 => mtch dec r1 k s || mtch dec r2 k s
  | Star r1 => star_loop (mtch dec r1) k (String.length s) s
  end.

(** [re.match(r, s)]: anchored at the start of [s], not at its end. *)
Definition re_match (dec : string -> bool) (r : regex) (s : string) : bool :=
  mtch dec r (fun _ => true) s.

(** Declarative reading: [matches r s s'] when [r] consumes a prefix of
    [s] and leaves [s']. *)
Inductive matches (dec : string -> bool) : regex -> string -> string -> Prop :=
| m_eps s : matches dec Eps s s
| m_chr c s : matches dec (Chr c) (String c s) s
| m_dot a s : is_newline a = false -> matches dec Dot (String a s) s
| m_digit t s : is_decimal dec t = true -> matches dec Digit (t +:+ s) s
| m_endz : matches dec EndZ EmptyString EmptyString
| m_cat r1 r2 s s1 s2 :
    matches dec r1 s s1 -> matches dec r2 s1 s2 -> matches dec (Cat r1 r2) s s2
| m_alt_l r1 r2 s s' : matches dec r1 s s' -> matches dec (Alt r1 r2) s s'
| m_alt_r r1 r2 s s' : matches dec r2 s s' -> matches dec (Alt r1 r2) s s'
| m_star_nil r s : matches dec (Star r) s s
| m_star_cons r s s1 s2 :
    matches dec r s s1 -> matches dec (Star r) s1 s2 -> matches dec (Star r) s s2.

End Re.

(** ** [os.path.join] and [str.split] *)

Definition startswith (s p : string) : bool := String.prefix p s.

Fixpoint endswith_sep (s : string) : bool :=
  match s with
  | EmptyString => false
  | String c EmptyString => Ascii.eqb c "/"
  | String _ s' => endswith_sep s'
  end.

(** [posixpath.join(a, b)] *)
Definition path_join (a b : string) : string :=
  if startswith b "/" then b
  else if String.eqb a "" || endswith_sep a then a +:+ b
  else a +:+ "/" +:+ b.

(** [s.split(sep)] for a one-character separator *)
Fixpoint split (sep : ascii) (s : string) : list string :=
  match s with
  | EmptyString => [""]
  | String c s' =>
      let r := split sep s' in
      if Ascii.eqb c sep then "" :: r
      else match r with
           | h :: t => String c h :: t
           | [] => [String c ""]
           end
  end.

(** ** What the program observes of its surroundings *)

(** The exceptions the program tells apart. *)
Inductive exn : Type :=
| ELFError                      (* elftools' ELFError or a subclass of it *)
| PermissionError
| OtherError (name : string).   (* FileNotFoundError, IsADirectoryError, ... *)

Inductive result (A : Type) : Type :=
| Ok (a : A)
| Raises (e : exn).
Arguments Ok {A} a.
Arguments Raises {A} e.

(** A Python iterator that may raise while it is being consumed. *)
Inductive iter (A : Type) : Type :=
| Stop
| Raise (e : exn)
| Yield (a : A) (rest : iter A).
Arguments Stop {A}.
Arguments Raise {A} e.
Arguments Yield {A} a rest.

Record tag : Type := Tag { d_tag : string; needed : string }.

Inductive section : Type :=
| DynamicSection (iter_tags : iter tag)
| OtherSection.

(** The object [open(sofile, 'rb')] returns, seen through what
    [ELFFile(f)] makes of it: an exception, or the sections
    [iter_sections()] goes through. *)
Definition file_obj : Type := result (iter section).

Record World : Type := {
  environ_PATH : option string;                 (* os.environ.get("PATH") *)
  path_exists : string -> bool;                 (* os.path.exists *)
  os_walk : string -> list (string * list string * list string);
  islink : string -> bool;                      (* os.path.islink *)
  open_rb : string -> result file_obj;          (* open(path, 'rb') *)
  unicode_decimal : string -> bool              (* the decimal digits beyond ASCII *)
}.

Definition ELFFile (f : file_obj) : result (iter section) := f.

Definition bytes2str (b : string) : string := b.

(** ** Output on stderr *)

Inductive out : Type :=
| Warn (text : string)                          (* warn(text) *)
| RequiredBy (lib : string) (by_ : list string). (* the "... required by: ..." line *)

(** ** The scanner *)

(** [somatching]: the pattern is compiled with [re.VERBOSE], which drops
    the white space and the two comments:
    [.*\.so\Z|.*\.so(\.\d+)+] *)
Definition somatching : Re.regex :=
  Re.Alt
    (Re.Cat (Re.Star Re.Dot) (Re.Cat (Re.Lit ".so") Re.EndZ))
    (Re.Cat (Re.Star Re.Dot)
       (Re.Cat (Re.Lit ".so")
          (Re.Plus (Re.Cat (Re.Chr ".") (Re.Plus Re.Digit))))).

(** [walk_multi_dir(dirs)]: the walks of the directories, chained. *)
Definition walk_multi_dir (w : World) (dirs : list string)
  : list (string * list string * list string) :=
  flat_map (os_walk w) dirs.

(** A generator interleaves its side effects with the values it yields:
    it is unfolded into the actions its consumer sees, in order. *)
Inductive action : Type :=
| FoundAdd (fname : string)       (* self.found.add(fname) *)
| YieldPath (fullname : string).  (* yield fullname *)

Definition enumerate_shared_libs (w : World) (libdirs : list string) : list action :=
  flat_map
    (fun '(dpath, dnames, fnames) =>
       flat_map
         (fun '(fullname, fname) =>
            FoundAdd fname ::
            (if negb (islink w fullname) then [YieldPath fullname] else []))
         (map (fun fname => (path_join dpath fname, fname))
              (filter (fun fname =>
                         Re.re_match (unicode_decimal w) somatching fname = true)
                      fnames)))
    (walk_multi_dir w libdirs).

Definition enumerate_binaries (w : World) (bindirs : list string) : list action :=
  flat_map
    (fun '(dpath, dnames, fnames) =>
       flat_map
         (fun fname =>
            let fullname := path_join dpath fname in
            if negb (islink w fullname) then [YieldPath fullname] else [])
         fnames)
    (walk_multi_dir w bindirs).

(** ** The metadata extractor *)

(** [self.lib2required_by[name].append(sofile)] on a [defaultdict(list)] *)
Definition append_requirer (name sofile : string)
    (idx : gmap string (list string)) : gmap string (list string) :=
  <[name := idx !!! name ++ [sofile]]> idx.

(** [for tag in section.iter_tags(): ...] *)
Fixpoint for_tags (sofile : string) (tags : iter tag)
    (idx : gmap string (list string)) : gmap string (list string) * option exn :=
  match tags with
  | Stop => (idx, None)
  | Raise e => (idx, Some e)
  | Yield t rest =>
      for_tags sofile rest
        (if String.eqb (d_tag t) "DT_NEEDED"
         then append_requirer (bytes2str (needed t)) sofile idx
         else idx)
  end.

(** [for section in elffile.iter_sections(): ...] *)
Fixpoint for_sections (sofile : string) (ss : iter section)
    (idx : gmap string (list string)) : gmap string (list string) * option exn :=
  match ss with
  | Stop => (idx, None)
  | Raise e => (idx, Some e)
  | Yield sec rest =>
      match sec with
      | OtherSection => for_sections sofile rest idx
      | DynamicSection tags =>
          match for_tags sofile tags idx with
          | (idx', None) => for_sections sofile rest idx'
          | (idx', Some e) => (idx', Some e)
          end
      end
  end.

Definition permission_text (sofile : string) : string :=
  "Could not open " +:+ sofile +:+ "; please check permissions".

(** [collect_needed(self, sofile)] on the index and stderr; the second
    component is the exception that leaves the function, if any. *)
Definition collect_needed (w : World) (sofile : string)
    (st : gmap string (list string) * list out)
  : (gmap string (list string) * list out) * option exn :=
  let '(idx, err) := st in
  let '(idx1, r1) :=
    match open_rb w sofile with
    | Raises e => (idx, Some e)
    | Ok f =>
        let '(idx0, r0) :=
          match ELFFile f with
          | Raises e => (idx, Some e)
          | Ok elffile => for_sections sofile elffile idx
          end in
        match r0 with
        | Some ELFError => (idx0, None)        (* except ELFError: pass *)
        | _ => (idx0, r0)
        end
    end in
  match r1 with
  | Some PermissionError => ((idx1, err ++ [Warn (permission_text sofile)]), None)
  | _ => ((idx1, err), r1)
  end.

(** ** The finder object *)

(** [queue.Queue()]: the items waiting, and the count [join] waits on. *)
Record Queue : Type := MkQueue {
  items : list string;
  unfinished_tasks : nat
}.

Definition put (item : string) (q : Queue) : Queue :=
  MkQueue (items q ++ [item]) (S (unfinished_tasks q)).

(** [task_done] is only ever called after a [get] (see [inv_unfinished]
    below), so the counter is positive here. *)
Definition task_done (q : Queue) : Queue :=
  MkQueue (items q) (pred (unfinished_tasks q)).

Record BrokenFinder : Type := MkFinder {
  found : gset string;
  lib2required_by : gmap string (list string);
  bindirs : list string;
  libdirs : list string;
  job_queue : Queue
}.

(** [BrokenFinder.__init__] *)
Definition BrokenFinder_init (w : World) : BrokenFinder :=
  {| found := ∅;
     lib2required_by := ∅;
     bindirs := split ":" (default "/usr/bin" (environ_PATH w));
     libdirs := ["/usr"] ++ (if path_exists w "/opt" then ["/opt"] else []);
     job_queue := MkQueue [] 0 |}.

Definition with_found (f : gset string) (b : BrokenFinder) : BrokenFinder :=
  MkFinder f (lib2required_by b) (bindirs b) (libdirs b) (job_queue b).

Definition with_lib2required_by (idx : gmap string (list string))
    (b : BrokenFinder) : BrokenFinder :=
  MkFinder (found b) idx (bindirs b) (libdirs b) (job_queue b).

Definition with_job_queue (q : Queue) (b : BrokenFinder) : BrokenFinder :=
  MkFinder (found b) (lib2required_by b) (bindirs b) (libdirs b) q.

(** ** [check] and [worker] as two interleaved threads *)

(** Where the main thread stands in [check]. *)
Inductive check_pc : Type :=
| MScan (todo : list action)   (* in the [for] loop over the two generators *)
| MJoin                        (* at [self.job_queue.join()] *)
| MRead                        (* [join] has returned *)
| MDone (missing_libs : gset string).

(** Where the worker thread stands in [worker]. *)
Inductive worker_pc : Type :=
| WGet                         (* at [self.job_queue.get()] *)
| WCollect (item : string)     (* about to call [collect_needed(item)] *)
| WTaskDone                    (* about to call [task_done()] *)
| WDead (e : exn).             (* an exception left [worker]: the thread is gone *)

Record state : Type := MkState {
  self : BrokenFinder;
  pc_check : check_pc;
  pc_worker : worker_pc;
  stderr : list out
}.

Inductive thread : Type := Main | Worker.

Inductive event : Type :=
| EvAdd (fname : string)
| EvPut (item : string)
| EvScanned
| EvJoined
| EvRead
| EvGet (item : string)
| EvCollect (item : string)
| EvTaskDone.

Definition not_found_text : string := "The following libraries were not found".

(** The tail of [check], from the set difference on. *)
Definition report (b : BrokenFinder) : gset string * list out :=
  let missing_libs := dom (lib2required_by b) ∖ found b in
  (missing_libs,
   (if decide (missing_libs = ∅) then [] else [Warn not_found_text]) ++
   map (fun missing_lib => RequiredBy missing_lib (lib2required_by b !!! missing_lib))
       (elements missing_libs)).

(** One step of the main thread in [check], after [t.start()]; [None]
    when it is blocked at [join] or has finished. *)
Definition check (s : state) : option (event * state) :=
  let b := self s in
  match pc_check s with
  | MScan (FoundAdd fname :: todo) =>
      Some (EvAdd fname,
            MkState (with_found ({[fname]} ∪ found b) b) (MScan todo)
                    (pc_worker s) (stderr s))
  | MScan (YieldPath fullname :: todo) =>
      Some (EvPut fullname,
            MkState (with_job_queue (put fullname (job_queue b)) b) (MScan todo)
                    (pc_worker s) (stderr s))
  | MScan [] => Some (EvScanned, MkState b MJoin (pc_worker s) (stderr s))
  | MJoin =>
      if Nat.eqb (unfinished_tasks (job_queue b)) 0
      then Some (EvJoined, MkState b MRead (pc_worker s) (stderr s))
      else None
  | MRead =>
      let '(missing_libs, lines) := report b in
      Some (EvRead, MkState b (MDone missing_libs) (pc_worker s) (stderr s ++ lines))
  | MDone _ => None
  end.

(** One step of the thread that runs [worker]; [None] when it is
    blocked at [get] or has died.  [collect_needed] is one step: the
    main thread touches neither the index nor stderr before [join] has
    returned. *)
Definition worker (w : World) (s : state) : option (event * state) :=
  let b := self s in
  match pc_worker s with
  | WGet =>
      match items (job_queue b) with
      | [] => None
      | item :: rest =>
          Some (EvGet item,
                MkState (with_job_queue (MkQueue rest (unfinished_tasks (job_queue b))) b)
                        (pc_check s) (WCollect item) (stderr s))
      end
  | WCollect item =>
      let '((idx, err), r) := collect_needed w item (lib2required_by b, stderr s) in
      Some (EvCollect item,
            MkState (with_lib2required_by idx b) (pc_check s)
                    (match r with None => WTaskDone | Some e => WDead e end) err)
  | WTaskDone =>
      Some (EvTaskDone,
            MkState (with_job_queue (task_done (job_queue b)) b) (pc_check s) WGet (stderr s))
  | WDead _ => None
  end.

Definition step (w : World) (t : thread) (s : state) : option (event * state) :=
  match t with
  | Main => check s
  | Worker => worker w s
  end.

(** [itools.chain(self.enumerate_shared_libs(), self.enumerate_binaries())] *)
Definition scan_actions (w : World) (b : BrokenFinder) : list action :=
  enumerate_shared_libs w (libdirs b) ++ enumerate_binaries w (bindirs b).

(** [b = BrokenFinder(); b.check()] up to the start of the loop: the
    worker thread is started and waits at [get]. *)
Definition start (w : World) : state :=
  let b := BrokenFinder_init w in
  MkState b (MScan (scan_actions w b)) WGet [].

(** The executions of the two threads, with the events they produce. *)
Inductive exec (w : World) : list event -> state -> Prop :=
| exec_start : exec w [] (start w)
| exec_step tr s t ev s' :
    exec w tr s -> step w t s = Some (ev, s') -> exec w (tr ++ [ev]) s'.

(** Running a given schedule. *)
Fixpoint run_sched (w : World) (sched : list thread) (tr : list event) (s : state)
  : option (list event * state) :=
  match sched with
  | [] => Some (tr, s)
  | t :: sched' =>
      match step w t s with
      | Some (ev, s') => run_sched w sched' (tr ++ [ev]) s'
      | None => None
      end
  end.

(** ** What a whole scan amounts to *)

Definition yields (acts : list action) : list string :=
  flat_map (fun a => match a with YieldPath p => [p] | FoundAdd _ => [] end) acts.

Definition adds (acts : list action) : list string :=
  flat_map (fun a => match a with FoundAdd f => [f] | YieldPath _ => [] end) acts.

(** The paths put on the queue, in order. *)
Definition submitted (w : World) : list string :=
  yields (scan_actions w (BrokenFinder_init w)).

(** The names added to [found]. *)
Definition available (w : World) : gset string :=
  list_to_set (adds (scan_actions w (BrokenFinder_init w))).

(** The worker loop over a list of items, until one raises. *)
Fixpoint run_worker (w : World) (paths : list string)
    (st : gmap string (list string) * list out)
  : (gmap string (list string) * list out) * option exn :=
  match paths with
  | [] => (st, None)
  | p :: rest =>
      match collect_needed w p st with
      | (st', None) => run_worker w rest st'
      | (st', Some e) => (st', Some e)
      end
  end.

Definition collects (tr : list event) : list string :=
  flat_map (fun ev => match ev with EvCollect p => [p] | _ => [] end) tr.

Definition puts (tr : list event) : list string :=
  flat_map (fun ev => match ev with EvPut p => [p] | _ => [] end) tr.

(** The [DT_NEEDED] names [collect_needed] sees in a file before the
    iteration stops or raises, in order. *)
Fixpoint needed_of_tags (tags : iter tag) : list string :=
  match tags with
  | Stop | Raise _ => []
  | Yield t rest =>
      (if String.eqb (d_tag t) "DT_NEEDED" then [bytes2str (needed t)] else [])
      ++ needed_of_tags rest
  end.

Fixpoint tags_raise (tags : iter tag) : option exn :=
  match tags with
  | Stop => None
  | Raise e => Some e
  | Yield _ rest => tags_raise rest
  end.

Fixpoint needed_of_sections (ss : iter section) : list string :=
  match ss with
  | Stop | Raise _ => []
  | Yield OtherSection rest => needed_of_sections rest
  | Yield (DynamicSection tags) rest =>
      needed_of_tags tags ++
      (match tags_raise tags with None => needed_of_sections rest | Some _ => [] end)
  end.

Definition needed_names (w : World) (sofile : string) : list string :=
  match open_rb w sofile with
  | Ok (Ok ss) => needed_of_sections ss
  | _ => []
  end.

(** The iteration runs to its end without raising. *)
Fixpoint tags_complete (tags : iter tag) : bool :=
  match tags with
  | Stop => true
  | Raise _ => false
  | Yield _ rest => tags_complete rest
  end.

Fixpoint sections_complete (ss : iter section) : bool :=
  match ss with
  | Stop => true
  | Raise _ => false
  | Yield OtherSection rest => sections_complete rest
  | Yield (DynamicSection tags) rest => tags_complete tags && sections_complete rest
  end.

Fixpoint sections_raise (ss : iter section) : option exn :=
  match ss with
  | Stop => None
  | Raise e => Some e
  | Yield OtherSection rest => sections_raise rest
  | Yield (DynamicSection tags) rest =>
      match tags_raise tags with
      | None => sections_raise rest
      | Some e => Some e
      end
  end.

(** The elements of an iterator that runs to its end. *)
Fixpoint to_list {A : Type} (it : iter A) : list A :=
  match it with
  | Stop | Raise _ => []
  | Yield a rest => a :: to_list rest
  end.

(** The entries tagged [DT_NEEDED] of the dynamic sections, in the
    order of the sections and, within a section, of its entries. *)
Definition dt_needed_entries (ss : iter section) : list string :=
  flat_map
    (fun sec =>
       match sec with
       | DynamicSection tags =>
           map (fun t => bytes2str (needed t))
               (filter (fun t => d_tag t = "DT_NEEDED") (to_list tags))
       | OtherSection => []
       end)
    (to_list ss).

(** Requirement edges [(required_name, requiring_object_path)]. *)
Definition edges_of (w : World) (sofile : string) : list (string * string) :=
  map (fun name => (name, sofile)) (needed_names w sofile).

Definition add_edges (edges : list (string * string))
    (idx : gmap string (list string)) : gmap string (list string) :=
  foldl (fun m e => append_requirer (fst e) (snd e) m) idx edges.

(** The requirers of [name] among some edges, in the order of the edges. *)
Definition requirers_in (name : string) (edges : list (string * string)) : list string :=
  map snd (filter (fun e => fst e = name) edges).

(** The state reached once every submitted path has gone through
    [collect_needed], counted from the empty index of [__init__]. *)
Definition final_run (w : World)
  : (gmap string (list string) * list out) * option exn :=
  run_worker w (submitted w) (∅, []).

Definition final_index (w : World) : gmap string (list string) :=
  fst (fst (final_run w)).

Definition final_warnings (w : World) : list out := snd (fst (final_run w)).

(** The exception that leaves [collect_needed(sofile)], if any. *)
Definition propagates (w : World) (sofile : string) : option exn :=
  snd (collect_needed w sofile (∅, [])).

(** The warnings [collect_needed(sofile)] prints. *)
Definition warnings_of (w : World) (sofile : string) : list out :=
  snd (fst (collect_needed w sofile (∅, []))).

(** The Missing Set with its requirers, as [check] prints it. *)
Definition missing_set (s : state) : gmap string (list string) :=
  match pc_check s with
  | MDone missing_libs =>
      list_to_map
        ((fun missing_lib => (missing_lib, lib2required_by (self s) !!! missing_lib))
           <$> elements missing_libs)
  | _ => ∅
  end.

(** ** The naming pattern in the words of the specification *)

Fixpoint no_newline (u : string) : bool :=
  match u with
  | EmptyString => true
  | String c u' => negb (Re.is_newline c) && no_newline u'
  end.

Inductive vstate : Type := VStart | VDot | VDigits.

(** Zero or more groups of a dot followed by one or more digits. *)
Fixpoint versions (st : vstate) (s : string) : bool :=
  match s with
  | EmptyString => match st with VDot => false | _ => true end
  | String c s' =>
      if Ascii.eqb c "."
      then match st with VDot => false | _ => versions VDot s' end
      else if Re.is_digit c
           then match st with VStart => false | _ => versions VDigits s' end
           else false
  end.

(** [.so] and nothing but version components from here to the end. *)
Definition so_here (f : string) : bool :=
  match f with
  | String a (String b (String c t)) =>
      Ascii.eqb a "." && Ascii.eqb b "s" && Ascii.eqb c "o" && versions VStart t
  | _ => false
  end.

(** The name ends in [.so], or in [.so] followed by one or more
    dot-separated numeric version components. *)
Fixpoint so_name (f : string) : bool :=
  match f with
  | EmptyString => false
  | String _ f' => so_here f || so_name f'
  end.

(** ** Invariant of the executions *)

Definition todo_of (m : check_pc) : list action :=
  match m with MScan todo => todo | _ => [] end.

Definition held (wk : worker_pc) : list string :=
  match wk with WCollect item => [item] | _ => [] end.

(** Items taken from the queue and not yet reported done. *)
Definition owed (wk : worker_pc) : nat :=
  match wk with WGet => 0 | _ => 1 end.

Definition raised (wk : worker_pc) : option exn :=
  match wk with WDead e => Some e | _ => None end.

Definition quiescent (s : state) : Prop :=
  pc_worker s = WGet /\ items (job_queue (self s)) = [] /\
  unfinished_tasks (job_queue (self s)) = 0.

(** [join] has returned. *)
Definition joined (s : state) : Prop :=
  pc_check s = MRead \/ exists missing_libs, pc_check s = MDone missing_libs.

Record inv (w : World) (tr : list event) (s : state) : Prop := MkInv {
  inv_actions :
    exists done,
      scan_actions w (BrokenFinder_init w) = done ++ todo_of (pc_check s) /\
      found (self s) = list_to_set (adds done) /\
      yields done = puts tr /\
      yields done = collects tr ++ held (pc_worker s) ++ items (job_queue (self s));
  inv_unfinished :
    unfinished_tasks (job_queue (self s)) =
    length (items (job_queue (self s))) + owed (pc_worker s);
  inv_index :
    exists err,
      run_worker w (collects tr) (∅, []) =
        ((lib2required_by (self s), err), raised (pc_worker s)) /\
      stderr s = err ++ match pc_check s with
                        | MDone _ => snd (report (self s))
                        | _ => []
                        end;
  inv_main :
    match pc_check s with
    | MScan _ | MJoin => (EvJoined ∉ tr) ∧ (EvRead ∉ tr)
    | MRead => quiescent s ∧ ∃ tr', tr = tr' ++ [EvJoined] ∧ EvRead ∉ tr'
    | MDone missing_libs =>
        quiescent s ∧ missing_libs = fst (report (self s)) ∧
        ∃ tr', tr = tr' ++ [EvJoined; EvRead] ∧ EvRead ∉ tr'
    end
}.

(** The exception met while the opened file is parsed, if any. *)
Definition parse_raises (f : file_obj) : option exn :=
  match ELFFile f with
  | Raises e => Some e
  | Ok ss => sections_raise ss
  end.

(** ** Example file systems *)

(** Part of Python's table of decimal digits, enough for the examples:
    the Arabic-Indic digits U+0660 to U+0669, encoded as the byte 217
    followed by a byte from 160 to 169. *)
Definition arabic_indic (t : string) : bool :=
  match t with
  | String a (String b EmptyString) =>
      Nat.eqb (nat_of_ascii a) 217
      && Nat.leb 160 (nat_of_ascii b) && Nat.leb (nat_of_ascii b) 169
  | _ => false
  end.

(** [libfoo.so.] followed by U+0661, ARABIC-INDIC DIGIT ONE. *)
Definition libfoo_so_arabic_one : string :=
  "libfoo.so." +:+ String (ascii_of_nat 217) (String (ascii_of_nat 161) "").

Fixpoint assoc {A : Type} (d : A) (table : list (string * A)) (k : string) : A :=
  match table with
  | [] => d
  | (k', v) :: table' => if String.eqb k k' then v else assoc d table' k
  end.

Definition dynamic (names : list string) : section :=
  DynamicSection
    (fold_right (fun name rest => Yield (Tag "DT_NEEDED" name) rest) Stop names).

(** A library root with [libfoo.so.1] (no dynamic section), [libbar.so]
    (needs [libbaz.so.2]) and a link [libfoo.so]; a binary root with
    [app] (needs [libfoo.so.1] and [libqux.so]), a link [sh], a text
    file and a file that may not be read. *)
Definition w_demo : World := {|
  environ_PATH := Some "/bin:/nowhere";
  path_exists := fun _ => false;
  unicode_decimal := arabic_indic;
  os_walk :=
    assoc []
      [("/usr", [("/usr", ["lib"], []);
                 ("/usr/lib", [], ["libfoo.so.1"; "libbar.so"; "libfoo.so"; "README"])]);
       ("/bin", [("/bin", [], ["app"; "sh"; "notes.txt"; "secret"])])];
  islink := assoc false [("/usr/lib/libfoo.so", true); ("/bin/sh", true)];
  open_rb :=
    assoc (Raises (OtherError "FileNotFoundError"))
      [("/usr/lib/libfoo.so.1", Ok (Ok (Yield OtherSection Stop)));
       ("/usr/lib/libbar.so", Ok (Ok (Yield OtherSection (Yield (dynamic ["libbaz.so.2"]) Stop))));
       ("/bin/app",
        Ok (Ok (Yield (DynamicSection
                         (Yield (Tag "DT_NEEDED" "libfoo.so.1")
                            (Yield (Tag "DT_SONAME" "app")
                               (Yield (Tag "DT_NEEDED" "libqux.so") Stop))))
                      Stop)));
       ("/bin/notes.txt", Ok (Raises ELFError));
       ("/bin/secret", Raises PermissionError)]
|}.

(** The scan first, then the worker, then the end of [check]. *)
Definition sched_sequential : list thread :=
  replicate 9 Main ++ replicate 15 Worker ++ [Main; Main].

(** The worker runs while the scan is still going on. *)
Definition sched_interleaved : list thread :=
  [Main; Main; Worker; Main; Worker; Main; Worker; Worker; Main; Worker;
   Main; Main; Worker; Worker; Main; Worker; Worker; Worker; Main; Worker;
   Worker; Worker; Worker; Worker; Main; Main].

(** The same, stopped when [join] has just returned. *)
Definition sched_to_join : list thread :=
  replicate 9 Main ++ replicate 15 Worker ++ [Main].

(** The default roots overlap: [/usr/bin] is on [PATH] and lies under
    the library root [/usr].  [/usr/bin/libx.so] is a symbolic link. *)
Definition w_overlap : World := {|
  environ_PATH := Some "/usr/bin";
  path_exists := fun _ => false;
  unicode_decimal := arabic_indic;
  os_walk :=
    assoc []
      [("/usr", [("/usr", ["bin"], []); ("/usr/bin", [], ["libx.so"])]);
       ("/usr/bin", [("/usr/bin", [], ["libx.so"])])];
  islink := assoc false [("/usr/bin/libx.so", true)];
  open_rb := fun _ => Raises (OtherError "FileNotFoundError")
|}.

(** A library root that holds the debug companion of a library. *)
Definition w_debug : World := {|
  environ_PATH := None;
  path_exists := fun _ => false;
  unicode_decimal := arabic_indic;
  os_walk := assoc [] [("/usr", [("/usr", [], ["libfoo.so.1.debug"])])];
  islink := fun _ => false;
  open_rb := fun _ => Ok (Raises ELFError)
|}.

(** A binary that is removed after the scan has listed it. *)
Definition w_vanished : World := {|
  environ_PATH := Some "/bin";
  path_exists := fun _ => false;
  unicode_decimal := arabic_indic;
  os_walk := assoc [] [("/bin", [("/bin", [], ["gone"; "app"])])];
  islink := fun _ => false;
  open_rb :=
    assoc (Raises (OtherError "FileNotFoundError"))
      [("/bin/app", Ok (Ok (Yield (dynamic ["libc.so.6"]) Stop)))]
|}.

(** One object that lists the same library twice, and a second object
    that needs it too. *)
Definition w_twice : World := {|
  environ_PATH := Some "/bin";
  path_exists := fun _ => false;
  unicode_decimal := arabic_indic;
  os_walk := assoc [] [("/bin", [("/bin", [], ["a"; "b"])])];
  islink := fun _ => false;
  open_rb :=
    assoc (Raises (OtherError "FileNotFoundError"))
      [("/bin/a", Ok (Ok (Yield (dynamic ["libz.so"; "libm.so"; "libz.so"]) Stop)));
       ("/bin/b", Ok (Ok (Yield (dynamic ["libz.so"]) Stop)))]
|}.

(** A shared library that only lies under the binary root, next to the
    program that needs it. *)
Definition w_binlib : World := {|
  environ_PATH := Some "/bin";
  path_exists := fun _ => false;
  unicode_decimal := arabic_indic;
  os_walk :=
    assoc []
      [("/usr", [("/usr", [], ["libc.so.6"])]);
       ("/bin", [("/bin", [], ["libonly.so"; "app"])])];
  islink := fun _ => false;
  open_rb :=
    assoc (Raises (OtherError "FileNotFoundError"))
      [("/usr/libc.so.6", Ok (Ok (Yield OtherSection Stop)));
       ("/bin/libonly.so", Ok (Ok (Yield (dynamic []) Stop)));
       ("/bin/app", Ok (Ok (Yield (dynamic ["libonly.so"]) Stop)))]
|}.

Definition sched_binlib : list thread :=
  replicate 5 Main ++ replicate 9 Worker ++ [Main; Main].

(** Complete schedules for [w_overlap] (nothing is put on the queue)
    and for [w_debug] and [w_vanished]. *)
Definition sched_overlap : list thread := replicate 4 Main.

Definition sched_debug : list thread :=
  replicate 3 Main ++ replicate 3 Worker ++ [Main; Main].

Definition sched_vanished : list thread :=
  replicate 3 Main ++ replicate 2 Worker.

Definition sched_twice : list thread :=
  replicate 3 Main ++ replicate 6 Worker ++ [Main; Main].

(** The trace and the state a schedule leads to from the start. *)
Definition run_of (w : World) (sched : list thread) : list event * state :=
  default ([], start w) (run_sched w sched [] (start w)).

(** ** Measures and notions used by the further properties *)

(** [s.endswith(suffix)] *)
Fixpoint endswith (s suffix : string) : bool :=
  String.eqb s suffix
  || match s with
     | EmptyString => false
     | String _ s' => endswith s' suffix
     end.

(** [sep.join(l)] *)
Fixpoint str_join (sep : string) (l : list string) : string :=
  match l with
  | [] => ""
  | x :: l' =>
      match l' with
      | [] => x
      | _ :: _ => x +:+ sep +:+ str_join sep l'
      end
  end.

Fixpoint has_char (c : ascii) (s : string) : bool :=
  match s with
  | EmptyString => false
  | String a s' => Ascii.eqb a c || has_char c s'
  end.



(** The number of steps the two threads have left at most: the rest of
    the scan and the end of [check], three steps of the worker for each
    item still to come, and what the worker has left of the item it
    holds.  A dead worker keeps one step it will never take. *)
Definition potential (s : state) : nat :=
  match pc_check s with
  | MScan todo => length todo + 3
  | MJoin => 2
  | MRead => 1
  | MDone _ => 0
  end
  + 3 * (length (yields (todo_of (pc_check s))) + length (items (job_queue (self s))))
  + match pc_worker s with
    | WGet => 0
    | WCollect _ => 2
    | WTaskDone | WDead _ => 1
    end.

(** The length of every complete execution. *)
Definition run_length (w : World) : nat :=
  length (scan_actions w (BrokenFinder_init w)) + 3 * length (submitted w) + 3.

(** An object whose dynamic section breaks after its first entry. *)
Definition w_broken : World := {|
  environ_PATH := Some "/bin";
  path_exists := fun _ => false;
  unicode_decimal := arabic_indic;
  os_walk := assoc [] [("/bin", [("/bin", [], ["half"; "app"])])];
  islink := fun _ => false;
  open_rb :=
    assoc (Raises (OtherError "FileNotFoundError"))
      [("/bin/half",
        Ok (Ok (Yield (DynamicSection
                         (Yield (Tag "DT_NEEDED" "liba.so") (Raise ELFError)))
                      (Yield (dynamic ["libb.so"]) Stop))));
       ("/bin/app", Ok (Ok (Yield (dynamic ["libc.so.6"]) Stop)))]
|}.


(** An object that opens and has its first section read, after which
    the parser raises something that is not an [ELFError]. *)
Definition w_malformed : World := {|
  environ_PATH := Some "/bin";
  path_exists := fun _ => false;
  unicode_decimal := arabic_indic;
  os_walk := assoc [] [("/bin", [("/bin", [], ["bad"; "app"])])];
  islink := fun _ => false;
  open_rb :=
    assoc (Raises (OtherError "FileNotFoundError"))
      [("/bin/bad", Ok (Ok (Yield OtherSection (Raise (OtherError "ValueError")))));
       ("/bin/app", Ok (Ok (Yield (dynamic ["libc.so.6"]) Stop)))]
|}.

(** A library whose version is written with an Arabic-Indic digit. *)
Definition w_arabic : World := {|
  environ_PATH := None;
  path_exists := fun _ => false;
  unicode_decimal := arabic_indic;
  os_walk := assoc [] [("/usr", [("/usr", [], [libfoo_so_arabic_one])])];
  islink := fun _ => false;
  open_rb := fun _ => Ok (Raises ELFError)
|}.


(** * Properties *)

(** ** The matcher against its declarative reading *)

Lemma str_app_nil v : "" +:+ v = v.
Proof. reflexivity. Qed.

Lemma str_app_cons c u v : String c u +:+ v = String c (u +:+ v).
Proof. reflexivity. Qed.

Ltac str_simpl := rewrite ?str_app_cons, ?str_app_nil in *.

Lemma str_app_assoc u v x : (u +:+ v) +:+ x = u +:+ (v +:+ x).
Proof. induction u as [|c u IH]; str_simpl; congruence. Qed.

Lemma matches_suffix dec r s s' :
  Re.matches dec r s s' -> exists u, s = u +:+ s'.
Proof.
  induction 1;
    try (exists ""; reflexivity);
    try (eexists (String _ ""); reflexivity);
    try (eexists; reflexivity);
    try assumption.
  - destruct IHmatches1 as [u1 ->], IHmatches2 as [u2 ->].
    exists (u1 +:+ u2). by rewrite str_app_assoc.
  - destruct IHmatches1 as [u1 ->], IHmatches2 as [u2 ->].
    exists (u1 +:+ u2). by rewrite str_app_assoc.
Qed.

Lemma append_length u v :
  String.length (u +:+ v) = String.length u + String.length v.
Proof. induction u as [|c u IH]; str_simpl; simpl; [done | by rewrite IH]. Qed.

Lemma matches_no_progress dec r s s' :
  Re.matches dec r s s' -> String.length s <= String.length s' -> s' = s.
Proof.
  intros [u ->]%matches_suffix. rewrite append_length.
  destruct u; simpl; [done | lia].
Qed.

Lemma star_loop_sound dec r m1 k :
  (forall k s, m1 k s = true -> exists s', Re.matches dec r s s' /\ k s' = true) ->
  forall n s, Re.star_loop m1 k n s = true ->
              exists s', Re.matches dec (Re.Star r) s s' /\ k s' = true.
Proof.
  intros Hm1. induction n as [|n IH]; intros s; simpl.
  - intros Hk. exists s. split; [constructor | done].
  - intros [Hround | Hk]%orb_true_iff.
    + apply Hm1 in Hround as (s1 & Hs1 & Hrest).
      destruct (Nat.ltb _ _); [|done].
      apply IH in Hrest as (s2 & Hs2 & Hk).
      exists s2. split; [by eapply Re.m_star_cons | done].
    + exists s. split; [constructor | done].
Qed.

Lemma star_loop_complete dec r m1 k :
  (forall k s s', Re.matches dec r s s' -> k s' = true -> m1 k s = true) ->
  forall s s', Re.matches dec (Re.Star r) s s' -> k s' = true ->
               forall n, String.length s <= n -> Re.star_loop m1 k n s = true.
Proof.
  intros Hm1 s s' Hstar. remember (Re.Star r) as R eqn:HR.
  induction Hstar as [| | | | | | | | r0 s0 | r0 s0 s1 s2 H1 _ Hrest IH];
    try discriminate; injection HR as ->; intros Hk n Hn.
  - destruct n; simpl; [done | by rewrite Hk, orb_true_r].
  - destruct (decide (String.length s1 < String.length s0)) as [Hlt | Hge].
    + destruct n as [|n]; [lia |]. simpl.
      apply orb_true_iff. left. apply (Hm1 _ _ s1 H1).
      rewrite (proj2 (Nat.ltb_lt _ _) Hlt). apply IH; [done | done | lia].
    + assert (s1 = s0) as -> by (eapply matches_no_progress; [done | lia]).
      by apply IH.
Qed.

(** [\d] reads one decimal digit, of one to four bytes. *)
Lemma digit_token_spec dec k s :
  Re.digit_token dec k s = true <->
  exists t s', s = t +:+ s' /\ Re.is_decimal dec t = true /\ k s' = true.
Proof.
  split.
  - destruct s as [|a s1]; [done |]. cbn [Re.digit_token].
    intros [[Ht Hk]%andb_true_iff | H]%orb_true_iff.
    { by exists (String a ""), s1. }
    destruct s1 as [|b s2]; [done |].
    apply orb_true_iff in H as [[Ht Hk]%andb_true_iff | H].
    { by exists (String a (String b "")), s2. }
    destruct s2 as [|c s3]; [done |].
    apply orb_true_iff in H as [[Ht Hk]%andb_true_iff | H].
    { by exists (String a (String b (String c ""))), s3. }
    destruct s3 as [|d s4]; [done |].
    apply andb_true_iff in H as [Ht Hk].
    by exists (String a (String b (String c (String d "")))), s4.
  - intros (t & s' & -> & Ht & Hk).
    destruct t as [|a [|b [|c [|d [|e t]]]]]; try done;
      str_simpl; cbn [Re.digit_token]; rewrite Ht, Hk;
      by rewrite ?orb_true_r.
Qed.

Lemma mtch_spec dec r :
  forall k s, Re.mtch dec r k s = true <->
              exists s', Re.matches dec r s s' /\ k s' = true.
Proof.
  induction r as [| c | | | | r1 IH1 r2 IH2 | r1 IH1 r2 IH2 | r IH]; intros k s;
    cbn [Re.mtch].
  - split; [intros; exists s; split; [constructor | done] |].
    intros (s' & Hm & Hk). by inversion Hm; subst.
  - split.
    + destruct s as [|a s]; [done |].
      destruct (Ascii.eqb_spec a c) as [-> |]; [|done].
      intros; exists s; split; [constructor | done].
    + intros (s' & Hm & Hk). inversion Hm; subst. by rewrite Ascii.eqb_refl.
  - split.
    + destruct s as [|a s]; [done |].
      destruct (Re.is_newline a) eqn:Ha; [done |].
      intros; exists s; split; [by constructor | done].
    + intros (s' & Hm & Hk). inversion Hm as [| |? ? Ha| | | | | | |]; subst. by rewrite Ha.
  - rewrite digit_token_spec. split.
    + intros (t & s' & -> & Ht & Hk). exists s'. split; [by constructor | done].
    + intros (s' & Hm & Hk). inversion Hm as [| | |t ? Ht| | | | | |]; subst. eauto.
  - split.
    + destruct s; [|done]. intros; exists ""; split; [constructor | done].
    + intros (s' & Hm & Hk). by inversion Hm; subst.
  - rewrite IH1. split.
    + intros (s1 & H1 & (s2 & H2 & Hk)%IH2). exists s2. split; [by econstructor | done].
    + intros (s2 & Hm & Hk). inversion Hm; subst.
      eexists; split; [done |]. apply IH2. eauto.
  - rewrite orb_true_iff, IH1, IH2. split.
    + intros [(s' & H & Hk) | (s' & H & Hk)]; exists s'; split; try done.
      * by apply Re.m_alt_l.
      * by apply Re.m_alt_r.
    + intros (s' & Hm & Hk). inversion Hm; subst; eauto.
  - split.
    + apply star_loop_sound. intros k' s'. apply IH.
    + intros (s' & Hm & Hk). eapply star_loop_complete; [| done | done | done].
      intros k' s0 s1 H0 Hk'. apply IH. eauto.
Qed.

(** ** What [somatching] accepts *)

Ltac inv_matches H := inversion H; subst; clear H.

Lemma star_dot_matches dec s s' :
  Re.matches dec (Re.Star Re.Dot) s s' <->
  exists u, s = u +:+ s' /\ no_newline u = true.
Proof.
  split.
  - intros H. remember (Re.Star Re.Dot) as R eqn:HR.
    induction H as [| | | | | | | | r s | r s s1 s2 H1 _ _ IH]; try discriminate.
    + by exists "".
    + injection HR as ->. destruct (IH eq_refl) as (u & -> & Hu).
      inversion H1 as [| |a ? Ha| | | | | | |]; subst.
      exists (String a u). split; [done |]. simpl. by rewrite Ha, Hu.
  - intros (u & -> & Hu). induction u as [|a u IH]; str_simpl.
    + constructor.
    + simpl in Hu. apply andb_true_iff in Hu as [Ha Hu].
      eapply Re.m_star_cons; [| by apply IH].
      constructor. by apply negb_true_iff.
Qed.

Lemma lit_matches dec l s s' :
  Re.matches dec (Re.Lit l) s s' <-> s = l +:+ s'.
Proof.
  revert s. induction l as [|c l IH]; intros s; simpl; str_simpl.
  - split; [intros H; by inv_matches H | intros ->; constructor].
  - split.
    + intros H. inv_matches H.
      match goal with H : Re.matches _ (Re.Chr _) _ _ |- _ => inv_matches H end.
      f_equal. by apply IH.
    + intros ->. econstructor; [constructor | by apply IH].
Qed.

Lemma cat_matches dec r1 r2 s s' :
  Re.matches dec (Re.Cat r1 r2) s s' <->
  exists s1, Re.matches dec r1 s s1 /\ Re.matches dec r2 s1 s'.
Proof.
  split.
  - intros H. inv_matches H. eauto.
  - intros (s1 & H1 & H2). by econstructor.
Qed.

Lemma version_group_matches dec s s' :
  Re.matches dec (Re.Plus (Re.Cat (Re.Chr ".") (Re.Plus Re.Digit))) s s' ->
  exists t rest, s = String "." (t +:+ rest) /\ Re.is_decimal dec t = true.
Proof.
  unfold Re.Plus.
  intros (s1 & (s2 & Hdot & (s3 & Hd & _)%cat_matches)%cat_matches & _)%cat_matches.
  inv_matches Hdot. inv_matches Hd. eauto.
Qed.

Lemma version_group_intro dec t rest :
  Re.is_decimal dec t = true ->
  Re.matches dec (Re.Plus (Re.Cat (Re.Chr ".") (Re.Plus Re.Digit)))
             (String "." (t +:+ rest)) rest.
Proof.
  intros Hd. unfold Re.Plus.
  eapply Re.m_cat; [| apply Re.m_star_nil].
  eapply Re.m_cat; [apply Re.m_chr |].
  eapply Re.m_cat; [by apply Re.m_digit | apply Re.m_star_nil].
Qed.

(** [re.match(somatching, fname)] succeeds exactly on the names that end
    in [.so] after a newline-free stem, and on the names in which a
    newline-free stem is followed by [.so.] and a decimal digit;
    whatever comes after that digit is not looked at. *)
Lemma somatching_spec dec fname :
  Re.re_match dec somatching fname = true <->
  (exists u, fname = u +:+ ".so" /\ no_newline u = true) \/
  (exists u t rest,
      fname = u +:+ ".so." +:+ t +:+ rest /\
      no_newline u = true /\ Re.is_decimal dec t = true).
Proof.
  unfold Re.re_match. rewrite mtch_spec. split.
  - intros (s' & H & _). unfold somatching in H.
    inversion H as [| | | | | |? ? ? ? Hl|? ? ? ? Hr| |]; subst; clear H.
    + left.
      apply cat_matches in Hl as (s1 & Hstem & (s2 & Hso & Hend)%cat_matches).
      apply star_dot_matches in Hstem as (u & -> & Hu).
      apply (lit_matches dec ".so") in Hso as ->. inv_matches Hend. eauto.
    + right.
      apply cat_matches in Hr as (s1 & Hstem & (s2 & Hso & Hver)%cat_matches).
      apply star_dot_matches in Hstem as (u & -> & Hu).
      apply (lit_matches dec ".so") in Hso as ->.
      apply version_group_matches in Hver as (t & rest & -> & Hd).
      exists u, t, rest. by str_simpl.
  - intros [(u & -> & Hu) | (u & t & rest & -> & Hu & Hd)].
    + exists "". split; [| done]. apply Re.m_alt_l.
      eapply Re.m_cat; [apply star_dot_matches; eauto |].
      eapply Re.m_cat; [by apply (lit_matches dec ".so") | constructor].
    + exists rest. split; [| done]. apply Re.m_alt_r.
      change (u +:+ ".so." +:+ t +:+ rest)
        with (u +:+ ".so" +:+ String "." (t +:+ rest)).
      eapply Re.m_cat.
      { apply (proj2 (star_dot_matches dec _ (".so" +:+ String "." (t +:+ rest)))).
        eauto. }
      eapply Re.m_cat.
      { apply (proj2 (lit_matches dec ".so" _ (String "." (t +:+ rest)))).
        reflexivity. }
      by apply version_group_intro.
Qed.

(** ** The pattern of the specification against [somatching] *)

Lemma versions_start t :
  versions VStart t = true ->
  t = "" \/ exists d rest, t = String "." (String d rest) /\ Re.is_digit d = true.
Proof.
  destruct t as [|c t]; [by left |]. simpl.
  destruct (Ascii.eqb_spec c ".") as [-> | _].
  - destruct t as [|d t]; [done |]. simpl.
    destruct (Ascii.eqb d "."); [done |].
    destruct (Re.is_digit d) eqn:Hd; [| done].
    intros _. right. eauto.
  - by destruct (Re.is_digit c).
Qed.

Lemma so_name_split f :
  so_name f = true ->
  exists u t, f = u +:+ ".so" +:+ t /\ versions VStart t = true.
Proof.
  induction f as [|a f IH]; [done |].
  simpl so_name. intros [Hhere | Hlater]%orb_true_iff.
  - destruct f as [|b [|c t]]; try done. simpl in Hhere.
    destruct (Ascii.eqb_spec a "."); [subst | done].
    destruct (Ascii.eqb_spec b "s"); [subst | done].
    destruct (Ascii.eqb_spec c "o"); [subst | done].
    by exists "", t.
  - destruct (IH Hlater) as (u & t & -> & Ht). by exists (String a u), t.
Qed.

Lemma no_newline_app u v :
  no_newline (u +:+ v) = no_newline u && no_newline v.
Proof.
  induction u as [|c u IH]; str_simpl; simpl; [done |].
  by rewrite IH, andb_assoc.
Qed.

(** Every newline-free name the specification describes is accepted,
    whatever the table of the further decimal digits. *)
Lemma so_name_accepted dec fname :
  so_name fname = true -> no_newline fname = true ->
  Re.re_match dec somatching fname = true.
Proof.
  intros (u & t & -> & Ht)%so_name_split Hnl.
  rewrite no_newline_app in Hnl. apply andb_true_iff in Hnl as [Hu _].
  apply somatching_spec.
  destruct (versions_start t Ht) as [-> | (d & rest & -> & Hd)].
  - left. by exists u.
  - right. by exists u, (String d ""), rest.
Qed.

(** A newline in the stem makes [.*] stop short: such a name ends in
    [.so] and is not accepted. *)
Example newline_in_stem_rejected dec :
  so_name (String "a" (String Re.newline "b.so")) = true /\
  Re.re_match dec somatching (String "a" (String Re.newline "b.so")) = false.
Proof. split; reflexivity. Qed.

(** A name that ends in a decimal digit beyond ASCII is accepted, as it
    is by Python's [\d], when the table has that digit. *)
Example unicode_digit_accepted :
  Re.re_match arabic_indic somatching libfoo_so_arabic_one = true /\
  so_name libfoo_so_arabic_one = false.
Proof. split; reflexivity. Qed.

(** ** The scanner *)

Lemma elem_of_flat_map {A B} (f : A -> list B) (l : list A) (y : B) :
  y ∈ flat_map f l <-> exists x, x ∈ l /\ y ∈ f x.
Proof.
  rewrite list_elem_of_In, in_flat_map.
  split; intros (x & Hx & Hy); exists x; by rewrite ?list_elem_of_In in *.
Qed.

Lemma yields_app a1 a2 : yields (a1 ++ a2) = yields a1 ++ yields a2.
Proof. apply flat_map_app. Qed.

Lemma adds_app a1 a2 : adds (a1 ++ a2) = adds a1 ++ adds a2.
Proof. apply flat_map_app. Qed.

Lemma yields_flat_map {A} (f : A -> list action) l :
  yields (flat_map f l) = flat_map (fun x => yields (f x)) l.
Proof.
  induction l as [|x l IH]; simpl; [done |]. by rewrite yields_app, IH.
Qed.

Lemma adds_flat_map {A} (f : A -> list action) l :
  adds (flat_map f l) = flat_map (fun x => adds (f x)) l.
Proof.
  induction l as [|x l IH]; simpl; [done |]. by rewrite adds_app, IH.
Qed.

(** The binary scan never touches [found]. *)
Lemma adds_enumerate_binaries w dirs : adds (enumerate_binaries w dirs) = [].
Proof.
  unfold enumerate_binaries. rewrite adds_flat_map.
  induction (walk_multi_dir w dirs) as [|[[dpath dnames] fnames] l IH]; simpl; [done |].
  rewrite IH, app_nil_r, adds_flat_map.
  induction fnames as [|fname fnames IHf]; simpl; [done |].
  rewrite IHf, app_nil_r. by destruct (islink w _).
Qed.

Lemma elem_of_adds_shared_libs w dirs fname :
  fname ∈ adds (enumerate_shared_libs w dirs) <->
  exists dpath dnames fnames,
    (dpath, dnames, fnames) ∈ walk_multi_dir w dirs /\
    fname ∈ fnames /\ Re.re_match (unicode_decimal w) somatching fname = true.
Proof.
  unfold enumerate_shared_libs. rewrite adds_flat_map, elem_of_flat_map. split.
  - intros ([[dpath dnames] fnames] & Hwalk & Hin).
    rewrite adds_flat_map, elem_of_flat_map in Hin.
    destruct Hin as ([fullname f] & Hf & Hadd).
    apply list_elem_of_In, in_map_iff in Hf as (f' & [= <- <-] & Hf').
    apply list_elem_of_In, list_elem_of_filter in Hf' as [Hm Hf'].
    simpl in Hadd. destruct (islink w _); simpl in Hadd;
      apply list_elem_of_singleton in Hadd as ->; eauto 10.
  - intros (dpath & dnames & fnames & Hwalk & Hf & Hm).
    exists (dpath, dnames, fnames). split; [done |].
    rewrite adds_flat_map, elem_of_flat_map.
    exists (path_join dpath fname, fname). split.
    + apply list_elem_of_In, in_map_iff. exists fname. split; [done |].
      apply list_elem_of_In, list_elem_of_filter. done.
    + simpl. destruct (islink w _); simpl; by apply list_elem_of_singleton.
Qed.

Lemma elem_of_yields_shared_libs w dirs p :
  p ∈ yields (enumerate_shared_libs w dirs) <->
  exists dpath dnames fnames fname,
    (dpath, dnames, fnames) ∈ walk_multi_dir w dirs /\
    fname ∈ fnames /\ Re.re_match (unicode_decimal w) somatching fname = true /\
    p = path_join dpath fname /\ islink w p = false.
Proof.
  unfold enumerate_shared_libs. rewrite yields_flat_map, elem_of_flat_map. split.
  - intros ([[dpath dnames] fnames] & Hwalk & Hin).
    rewrite yields_flat_map, elem_of_flat_map in Hin.
    destruct Hin as ([fullname f] & Hf & Hy).
    apply list_elem_of_In, in_map_iff in Hf as (f' & [= <- <-] & Hf').
    apply list_elem_of_In, list_elem_of_filter in Hf' as [Hm Hf'].
    simpl in Hy. destruct (islink w _) eqn:Hl; simpl in Hy; [by apply elem_of_nil in Hy |].
    apply list_elem_of_singleton in Hy as ->. eauto 10.
  - intros (dpath & dnames & fnames & fname & Hwalk & Hf & Hm & -> & Hl).
    exists (dpath, dnames, fnames). split; [done |].
    rewrite yields_flat_map, elem_of_flat_map.
    exists (path_join dpath fname, fname). split.
    + apply list_elem_of_In, in_map_iff. exists fname. split; [done |].
      apply list_elem_of_In, list_elem_of_filter. done.
    + simpl. rewrite Hl. simpl. by apply list_elem_of_singleton.
Qed.

Lemma elem_of_yields_binaries w dirs p :
  p ∈ yields (enumerate_binaries w dirs) <->
  exists dpath dnames fnames fname,
    (dpath, dnames, fnames) ∈ walk_multi_dir w dirs /\
    fname ∈ fnames /\ p = path_join dpath fname /\ islink w p = false.
Proof.
  unfold enumerate_binaries. rewrite yields_flat_map, elem_of_flat_map. split.
  - intros ([[dpath dnames] fnames] & Hwalk & Hin).
    rewrite yields_flat_map, elem_of_flat_map in Hin.
    destruct Hin as (fname & Hf & Hy).
    simpl in Hy. destruct (islink w _) eqn:Hl; simpl in Hy; [by apply elem_of_nil in Hy |].
    apply list_elem_of_singleton in Hy as ->. eauto 10.
  - intros (dpath & dnames & fnames & fname & Hwalk & Hf & -> & Hl).
    exists (dpath, dnames, fnames). split; [done |].
    rewrite yields_flat_map, elem_of_flat_map.
    exists fname. split; [done |].
    simpl. rewrite Hl. simpl. by apply list_elem_of_singleton.
Qed.

(** [found] holds exactly the matching names under the library roots. *)
Lemma elem_of_available w fname :
  fname ∈ available w <->
  exists dpath dnames fnames,
    (dpath, dnames, fnames) ∈ walk_multi_dir w (libdirs (BrokenFinder_init w)) /\
    fname ∈ fnames /\ Re.re_match (unicode_decimal w) somatching fname = true.
Proof.
  unfold available, scan_actions.
  rewrite elem_of_list_to_set, adds_app, adds_enumerate_binaries, app_nil_r.
  apply elem_of_adds_shared_libs.
Qed.

(** No symbolic link is ever put on the queue. *)
Lemma submitted_not_link w p : p ∈ submitted w -> islink w p = false.
Proof.
  unfold submitted, scan_actions. rewrite yields_app, elem_of_app.
  intros [H | H].
  - by apply elem_of_yields_shared_libs in H as (? & ? & ? & ? & _ & _ & _ & _ & ?).
  - by apply elem_of_yields_binaries in H as (? & ? & ? & ? & _ & _ & _ & ?).
Qed.

(** ** The extractor *)

Lemma add_edges_app e1 e2 idx :
  add_edges (e1 ++ e2) idx = add_edges e2 (add_edges e1 idx).
Proof. apply foldl_app. Qed.

Lemma for_tags_spec sofile tags idx :
  for_tags sofile tags idx =
  (add_edges (map (fun name => (name, sofile)) (needed_of_tags tags)) idx,
   tags_raise tags).
Proof.
  revert idx. induction tags as [| e | t rest IH]; intros idx; simpl; try done.
  rewrite IH, map_app, add_edges_app. by destruct (String.eqb _ _).
Qed.

Lemma for_sections_spec sofile ss idx :
  for_sections sofile ss idx =
  (add_edges (map (fun name => (name, sofile)) (needed_of_sections ss)) idx,
   sections_raise ss).
Proof.
  revert idx. induction ss as [| e | sec rest IH]; intros idx; simpl; try done.
  destruct sec as [tags |]; [| apply IH].
  rewrite for_tags_spec, map_app, add_edges_app.
  destruct (tags_raise tags); [done | apply IH].
Qed.

(** What one call does to the index and to stderr, and what leaves it. *)
Lemma collect_needed_spec w sofile idx err :
  collect_needed w sofile (idx, err) =
  ((add_edges (edges_of w sofile) idx, err ++ warnings_of w sofile),
   propagates w sofile).
Proof.
  unfold warnings_of, propagates, edges_of, needed_names, collect_needed, ELFFile.
  destruct (open_rb w sofile) as [[ss | e] | e]; simpl.
  - rewrite !for_sections_spec.
    destruct (sections_raise ss) as [[| |name] |]; simpl; by rewrite ?app_nil_r.
  - destruct e; simpl; by rewrite ?app_nil_r.
  - destruct e; simpl; by rewrite ?app_nil_r.
Qed.

Lemma lookup_append_requirer name sofile idx n :
  append_requirer name sofile idx !!! n =
  idx !!! n ++ (if decide (name = n) then [sofile] else []).
Proof.
  unfold append_requirer. destruct (decide (name = n)) as [-> | Hne].
  - by rewrite lookup_total_insert_eq.
  - by rewrite lookup_total_insert_ne, app_nil_r.
Qed.

(** The index groups the edges by name and keeps their order. *)
Lemma lookup_add_edges edges idx name :
  add_edges edges idx !!! name = idx !!! name ++ requirers_in name edges.
Proof.
  revert idx. induction edges as [|[n p] edges IH]; intros idx.
  - by rewrite app_nil_r.
  - change (add_edges ((n, p) :: edges) idx)
      with (add_edges edges (append_requirer n p idx)).
    rewrite IH, lookup_append_requirer, <- app_assoc. f_equal.
    unfold requirers_in. rewrite filter_cons. simpl.
    by destruct (decide (n = name)).
Qed.

Lemma dom_add_edges edges idx :
  dom (add_edges edges idx) = dom idx ∪ list_to_set (map fst edges).
Proof.
  revert idx. induction edges as [|[n p] edges IH]; intros idx.
  - simpl. set_solver.
  - change (add_edges ((n, p) :: edges) idx)
      with (add_edges edges (append_requirer n p idx)).
    rewrite IH. unfold append_requirer. rewrite dom_insert_L. simpl. set_solver.
Qed.

Lemma sections_complete_raise ss :
  sections_complete ss = true -> sections_raise ss = None.
Proof.
  induction ss as [| e | [tags |] rest IH]; simpl; try done.
  intros [Ht Hr]%andb_true_iff.
  assert (tags_raise tags = None) as ->; [| by apply IH].
  clear -Ht. induction tags; simpl in *; auto; done.
Qed.

Lemma needed_of_tags_complete tags :
  needed_of_tags tags =
  map (fun t => bytes2str (needed t))
      (filter (fun t => d_tag t = "DT_NEEDED") (to_list tags)).
Proof.
  induction tags as [| e | t rest IH]; simpl; try done.
  rewrite filter_cons, IH.
  destruct (String.eqb_spec (d_tag t) "DT_NEEDED") as [Heq | Hne];
    destruct (decide (d_tag t = "DT_NEEDED")); done.
Qed.

(** When the parse runs to its end, the names seen are all the
    [DT_NEEDED] entries. *)
Lemma needed_of_sections_complete ss :
  sections_complete ss = true -> needed_of_sections ss = dt_needed_entries ss.
Proof.
  unfold dt_needed_entries.
  induction ss as [| e | [tags |] rest IH]; simpl; try done.
  intros [Ht Hr]%andb_true_iff.
  rewrite needed_of_tags_complete, IH by done.
  assert (tags_raise tags = None) as ->; [| done].
  clear -Ht. induction tags; simpl in *; auto; done.
Qed.

(** ** The worker loop *)

Lemma run_worker_cons w p l st :
  run_worker w (p :: l) st =
  match collect_needed w p st with
  | (st', None) => run_worker w l st'
  | (st', Some e) => (st', Some e)
  end.
Proof. reflexivity. Qed.

Lemma run_worker_app w l1 l2 st :
  run_worker w (l1 ++ l2) st =
  match run_worker w l1 st with
  | (st', None) => run_worker w l2 st'
  | (st', Some e) => (st', Some e)
  end.
Proof.
  revert st. induction l1 as [|p l1 IH]; intros st; [done |].
  rewrite <- app_comm_cons, !run_worker_cons.
  destruct (collect_needed w p st) as [st' [e |]]; [done | apply IH].
Qed.


Lemma run_worker_spec w l idx err :
  snd (run_worker w l (idx, err)) = None ->
  fst (run_worker w l (idx, err)) =
  (add_edges (flat_map (edges_of w) l) idx, err ++ flat_map (warnings_of w) l).
Proof.
  revert idx err. induction l as [|p l IH]; intros idx err.
  - simpl. by rewrite app_nil_r.
  - rewrite run_worker_cons, collect_needed_spec. destruct (propagates w p); [done |].
    intros H. rewrite IH by done. simpl. by rewrite add_edges_app, <- app_assoc.
Qed.

(** ** The invariant holds along every execution *)

Lemma collects_snoc tr ev :
  collects (tr ++ [ev]) =
  collects tr ++ match ev with EvCollect p => [p] | _ => [] end.
Proof. unfold collects. rewrite flat_map_app. simpl. by rewrite app_nil_r. Qed.

Lemma puts_snoc tr ev :
  puts (tr ++ [ev]) = puts tr ++ match ev with EvPut p => [p] | _ => [] end.
Proof. unfold puts. rewrite flat_map_app. simpl. by rewrite app_nil_r. Qed.

Lemma owed_zero wk : owed wk = 0 -> wk = WGet.
Proof. by destruct wk. Qed.

Lemma inv_start w : inv w [] (start w).
Proof.
  split; simpl.
  - by exists [].
  - done.
  - by exists [].
  - split; apply not_elem_of_nil.
Qed.

Lemma not_elem_of_snoc {A} (x y : A) l : x ∉ l -> x ≠ y -> x ∉ l ++ [y].
Proof.
  intros Hl Hne [H | H%list_elem_of_singleton]%elem_of_app; [by apply Hl | done].
Qed.

Lemma step_collect w b m item err :
  step w Worker (MkState b m (WCollect item) err) =
  Some (EvCollect item,
        MkState (with_lib2required_by (add_edges (edges_of w item) (lib2required_by b)) b)
                m
                (match propagates w item with None => WTaskDone | Some e => WDead e end)
                (err ++ warnings_of w item)).
Proof.
  unfold step, worker. cbn [self pc_check pc_worker stderr].
  by rewrite collect_needed_spec.
Qed.

Ltac snoc_simpl := rewrite ?collects_snoc, ?puts_snoc; simpl; rewrite ?app_nil_r.

Ltac keep_out_of_trace Hmain :=
  destruct Hmain; split; by apply not_elem_of_snoc.

Lemma inv_step w tr s t ev s' :
  inv w tr s -> step w t s = Some (ev, s') -> inv w (tr ++ [ev]) s'.
Proof.
  intros [(done_ & Hscan & Hfound & Hputs & Hyields) Hunf (err0 & Hrun & Herr) Hmain].
  destruct s as [b m wk err]. simpl in *.
  destruct t.
  - (* the main thread *)
    unfold step, check.
    destruct m as [[|[fname | fullname] todo] | | | missing_libs]; simpl in *.
    + (* end of the loop *)
      intros [= <- <-]. split; snoc_simpl.
      * by exists done_.
      * done.
      * by exists err0.
      * keep_out_of_trace Hmain.
    + (* self.found.add(fname) *)
      intros [= <- <-]. split; snoc_simpl.
      * exists (done_ ++ [FoundAdd fname]). rewrite <- app_assoc. split; [done |].
        rewrite adds_app, yields_app, list_to_set_app_L, <- Hfound.
        simpl. rewrite !app_nil_r. split; [set_solver | done].
      * done.
      * by exists err0.
      * keep_out_of_trace Hmain.
    + (* self.job_queue.put(fullname) *)
      intros [= <- <-]. split; snoc_simpl.
      * exists (done_ ++ [YieldPath fullname]). rewrite <- app_assoc. split; [done |].
        rewrite adds_app, yields_app, <- Hputs, Hyields. simpl.
        rewrite !app_nil_r, <- !app_assoc. done.
      * rewrite length_app, Hunf. simpl. lia.
      * by exists err0.
      * keep_out_of_trace Hmain.
    + (* join *)
      destruct (Nat.eqb_spec (unfinished_tasks (job_queue b)) 0) as [Hz |]; [| done].
      intros [= <- <-]. split; snoc_simpl.
      * by exists done_.
      * done.
      * by exists err0.
      * destruct Hmain as [_ Hread]. split; [| by exists tr].
        rewrite Hz in Hunf. unfold quiescent. simpl.
        assert (owed wk = 0) as ->%owed_zero by lia.
        split; [done |]. split; [| done].
        destruct (items (job_queue b)); [done | simpl in Hunf; lia].
    + (* the set difference and the report *)
      intros [= <- <-]. split; snoc_simpl.
      * by exists done_.
      * done.
      * exists err0. split; [done |]. by rewrite Herr, app_nil_r.
      * destruct Hmain as (Hq & tr' & -> & Hread).
        split; [done |]. split; [done |]. exists tr'. by rewrite <- app_assoc.
    + done.
  - (* the worker thread *)
    assert (Hbusy : wk ≠ WGet \/ items (job_queue b) ≠ [] ->
                    err = err0 /\ exists todo, m = MScan todo \/ m = MJoin).
    { intros Hb. destruct m as [todo | | |]; simpl in Herr;
        rewrite ?app_nil_r in Herr.
      - eauto.
      - split; [done |]. exists []. by right.
      - destruct Hmain as ((Hw & Hi & _) & _). simpl in Hw, Hi. by destruct Hb.
      - destruct Hmain as ((Hw & Hi & _) & _). simpl in Hw, Hi. by destruct Hb. }
    destruct wk as [| item | | e];
      [unfold step, worker; simpl | rewrite step_collect
      | unfold step, worker; simpl | unfold step, worker; simpl].
    + (* get *)
      destruct (items (job_queue b)) as [|item rest] eqn:Hitems; [done |].
      intros [= <- <-].
      destruct (Hbusy ltac:(by right)) as (-> & todo & Hm).
      split; snoc_simpl.
      * by exists done_.
      * simpl in Hunf. lia.
      * exists err0. split; [done |]. destruct Hm as [-> | ->]; by rewrite app_nil_r.
      * destruct Hm as [-> | ->]; keep_out_of_trace Hmain.
    + (* collect_needed(item) *)
      destruct (Hbusy ltac:(by left)) as (-> & todo & Hm).
      intros [= <- <-]. split; snoc_simpl.
      * exists done_. rewrite <- app_assoc.
        split; [done |]. split; [done |]. split; [done |].
        by destruct (propagates w item).
      * rewrite Hunf. by destruct (propagates w item).
      * exists (err0 ++ warnings_of w item).
        rewrite run_worker_app, Hrun. cbn [raised].
        rewrite run_worker_cons, collect_needed_spec.
        split; [by destruct (propagates w item) |].
        destruct Hm as [-> | ->]; by rewrite app_nil_r.
      * destruct Hm as [-> | ->]; keep_out_of_trace Hmain.
    + (* task_done *)
      destruct (Hbusy ltac:(by left)) as (-> & todo & Hm).
      intros [= <- <-]. split; snoc_simpl.
      * by exists done_.
      * rewrite Hunf. simpl. lia.
      * exists err0. split; [done |]. destruct Hm as [-> | ->]; by rewrite app_nil_r.
      * destruct Hm as [-> | ->]; keep_out_of_trace Hmain.
    + done.
Qed.

Lemma exec_inv w tr s : exec w tr s -> inv w tr s.
Proof.
  induction 1 as [| tr s t ev s' _ IH Hstep]; [apply inv_start |].
  by eapply inv_step.
Qed.

(** ** What holds once [join] has returned *)

Lemma exec_joined w tr s :
  exec w tr s -> joined s ->
  puts tr = submitted w /\
  collects tr = submitted w /\
  found (self s) = available w /\
  lib2required_by (self s) = final_index w /\
  snd (final_run w) = None /\
  quiescent s /\
  stderr s = final_warnings w ++
             match pc_check s with MDone _ => snd (report (self s)) | _ => [] end.
Proof.
  intros [(done_ & Hscan & Hfound & Hputs & Hyields) _ (err0 & Hrun & Herr) Hmain]%exec_inv Hj.
  assert (todo_of (pc_check s) = [] /\ quiescent s) as [Htodo Hq].
  { destruct Hj as [Hm | [ms Hm]]; rewrite Hm in *; simpl; split; tauto. }
  rewrite Htodo, app_nil_r in Hscan. subst done_.
  destruct Hq as (Hw & Hi & Hu).
  rewrite Hw, Hi in Hyields. simpl in Hyields. rewrite app_nil_r in Hyields.
  rewrite Hw in Hrun. simpl in Hrun.
  unfold final_index, final_warnings, final_run, available, submitted.
  rewrite <- Hputs, Hyields, Hrun. simpl. done.
Qed.

(** The items handed to the extractor are always an initial segment of
    the submitted ones: none twice, none out of turn. *)
Lemma exec_collects_prefix w tr s :
  exec w tr s -> collects tr `prefix_of` submitted w.
Proof.
  intros [(done_ & Hscan & _ & _ & Hyields) _ _ _]%exec_inv.
  unfold submitted. rewrite Hscan, yields_app, Hyields, <- !app_assoc.
  by eexists.
Qed.

Lemma exec_found_subseteq w tr s :
  exec w tr s -> found (self s) ⊆ available w.
Proof.
  intros [(done_ & Hscan & Hfound & _) _ _ _]%exec_inv.
  unfold available. rewrite Hfound, Hscan, adds_app. set_solver.
Qed.

Lemma elem_of_collects tr p : EvCollect p ∈ tr <-> p ∈ collects tr.
Proof.
  unfold collects. rewrite elem_of_flat_map. split.
  - intros H. exists (EvCollect p). split; [done | by left].
  - intros (ev & Hev & Hp). by destruct ev; simpl in Hp;
      try apply elem_of_nil in Hp; try apply list_elem_of_singleton in Hp as ->.
Qed.

(** ** Executions exist: a schedule that runs the scan, lets the worker
    drain the queue, and then reads the index *)

Lemma run_sched_exec w sched : forall tr s tr' s',
  exec w tr s -> run_sched w sched tr s = Some (tr', s') -> exec w tr' s'.
Proof.
  induction sched as [|t sched IH]; intros tr s tr' s' Hexec; simpl.
  - by intros [= <- <-].
  - destruct (step w t s) as [[ev s1] |] eqn:Hstep; [| done].
    apply IH. by eapply exec_step.
Qed.




Lemma exec_run_of w sched :
  is_Some (run_sched w sched [] (start w)) ->
  exec w (fst (run_of w sched)) (snd (run_of w sched)).
Proof.
  unfold run_of. intros [[tr s] Hrun]. rewrite Hrun. simpl.
  eapply run_sched_exec; [apply exec_start | done].
Qed.

Lemma warnings_of_cases w sofile :
  warnings_of w sofile = [] \/ warnings_of w sofile = [Warn (permission_text sofile)].
Proof.
  unfold warnings_of, collect_needed, ELFFile.
  destruct (open_rb w sofile) as [[ss | e] | e]; simpl.
  - rewrite for_sections_spec. destruct (sections_raise ss) as [[| |name] |]; auto.
  - destruct e; auto.
  - destruct e; auto.
Qed.

Lemma final_warnings_only_warn w name by_ :
  snd (final_run w) = None -> RequiredBy name by_ ∉ final_warnings w.
Proof.
  intros Hok. unfold final_warnings, final_run in *.
  rewrite (run_worker_spec _ _ _ _ Hok). simpl.
  intros (p & _ & Hp)%elem_of_flat_map.
  destruct (warnings_of_cases w p) as [Hw | Hw]; rewrite Hw in Hp.
  - by apply elem_of_nil in Hp.
  - by apply list_elem_of_singleton in Hp.
Qed.

Lemma elem_of_report_lines (b : BrokenFinder) name by_ :
  RequiredBy name by_ ∈ snd (report b) <->
  name ∈ fst (report b) /\ by_ = lib2required_by b !!! name.
Proof.
  unfold report. simpl. rewrite elem_of_app. split.
  - intros [Hw | Hl].
    + destruct (decide _); [by apply elem_of_nil in Hw |].
      by apply list_elem_of_singleton in Hw.
    + apply list_elem_of_In, in_map_iff in Hl as (lib & [= <- <-] & Hlib).
      by apply list_elem_of_In, elem_of_elements in Hlib.
  - intros [Hin ->]. right. apply list_elem_of_In, in_map_iff.
    exists name. split; [done |]. by apply list_elem_of_In, elem_of_elements.
Qed.

(** ** The Missing Set *)

(** C1.  When [check] has printed its report, the Missing Set is the
    difference between the keys of the fully accumulated Requirement
    Index and the fully accumulated Available Set; no available name is
    in it, whatever requires that name; and the lines printed are those
    of the Missing Set, each with the requirers the index holds. *)
Theorem missing_set_is_difference w tr s missing_libs :
  exec w tr s -> pc_check s = MDone missing_libs ->
  lib2required_by (self s) = final_index w /\
  found (self s) = available w /\
  missing_libs = dom (final_index w) ∖ available w /\
  (forall name, name ∈ available w -> name ∉ missing_libs) /\
  (forall name by_,
      RequiredBy name by_ ∈ stderr s <->
      name ∈ missing_libs /\ by_ = final_index w !!! name).
Proof.
  intros Hexec Hmain.
  destruct (exec_joined w tr s Hexec) as (_ & _ & Hfound & Hidx & Hok & _ & Herr);
    [right; eauto |].
  apply exec_inv in Hexec as [_ _ _ Hm]. rewrite Hmain in Hm, Herr.
  destruct Hm as (_ & Hms & _).
  assert (missing_libs = dom (final_index w) ∖ available w) as Hdiff.
  { rewrite Hms. unfold report. simpl. by rewrite Hidx, Hfound. }
  repeat split; try done.
  - rewrite Hdiff. set_solver.
  - rewrite Herr, elem_of_app in H. destruct H as [H | H].
    + by apply final_warnings_only_warn in H.
    + apply elem_of_report_lines in H as [H _]. by rewrite Hms.
  - rewrite Herr, elem_of_app in H. destruct H as [H | H].
    + by apply final_warnings_only_warn in H.
    + apply elem_of_report_lines in H as [_ H]. by rewrite <- Hidx.
  - intros [Hin ->]. rewrite Herr, elem_of_app. right.
    apply elem_of_report_lines. by rewrite <- Hms, Hidx.
Qed.

Lemma missing_set_is_difference_witness :
  exec w_demo (fst (run_of w_demo sched_sequential))
              (snd (run_of w_demo sched_sequential)) /\
  forall name,
    name ∈ available w_demo ->
    name ∉ ({["libbaz.so.2"; "libqux.so"]} : gset string).
Proof.
  assert (Hexec : exec w_demo (fst (run_of w_demo sched_sequential))
                              (snd (run_of w_demo sched_sequential))).
  { apply exec_run_of. vm_compute. eauto. }
  split; [exact Hexec |].
  refine (proj1 (proj2 (proj2 (proj2
    (missing_set_is_difference w_demo _ _ {["libbaz.so.2"; "libqux.so"]} Hexec _))))).
  vm_compute. reflexivity.
Defined.

(** ** The drain barrier *)

Lemma step_read_at w s s' :
  step w Main s = Some (EvRead, s') -> pc_check s = MRead.
Proof.
  unfold step, check. destruct (pc_check s) as [[|[fname | fullname] todo] | | |]; try done.
  by destruct (Nat.eqb _ _).
Qed.

(** C2.  When the main thread reads the Requirement Index, [join] has
    just returned, every path put on the queue has been handed to
    [collect_needed] exactly once and in the order of submission, the
    worker is idle on an empty queue, and the index read is the fully
    accumulated one. *)
Theorem index_read_after_drain w tr s s' :
  exec w tr s -> step w Main s = Some (EvRead, s') ->
  puts tr = submitted w /\
  collects tr = puts tr /\
  (exists tr', tr = tr' ++ [EvJoined] /\ EvRead ∉ tr') /\
  quiescent s /\
  step w Worker s = None /\
  found (self s) = available w /\
  lib2required_by (self s) = final_index w /\
  lib2required_by (self s') = final_index w.
Proof.
  intros Hexec Hstep. pose proof (step_read_at _ _ _ Hstep) as Hmain.
  destruct (exec_joined w tr s Hexec) as (Hputs & Hcol & Hfound & Hidx & _ & Hq & _);
    [by left |].
  apply exec_inv in Hexec as [_ _ _ Hm]. rewrite Hmain in Hm.
  destruct Hm as [_ Htr].
  split; [done |]. split; [congruence |]. split; [done |]. split; [done |].
  split; [| split; [done | split; [done |]]].
  - destruct Hq as (Hw & Hi & _). unfold step, worker. by rewrite Hw, Hi.
  - unfold step, check in Hstep. rewrite Hmain in Hstep.
    destruct (report (self s)). by injection Hstep as <-.
Qed.

Lemma index_read_after_drain_witness :
  collects (fst (run_of w_demo sched_to_join)) =
  ["/usr/lib/libfoo.so.1"; "/usr/lib/libbar.so"; "/bin/app";
   "/bin/notes.txt"; "/bin/secret"].
Proof.
  assert (Hexec : exec w_demo (fst (run_of w_demo sched_to_join))
                              (snd (run_of w_demo sched_to_join))).
  { apply exec_run_of. vm_compute. eauto. }
  assert (Hstep : step w_demo Main (snd (run_of w_demo sched_to_join)) =
                  Some (EvRead, snd (run_of w_demo sched_sequential))).
  { vm_compute. reflexivity. }
  destruct (index_read_after_drain w_demo _ _ _ Hexec Hstep) as (Hputs & Hcol & _).
  rewrite Hcol, Hputs. vm_compute. reflexivity.
Defined.

(** ** Determinism *)

Lemma exec_done w tr s missing_libs :
  exec w tr s -> pc_check s = MDone missing_libs ->
  lib2required_by (self s) = final_index w /\
  found (self s) = available w /\
  missing_libs = dom (final_index w) ∖ available w.
Proof.
  intros Hexec Hmain.
  destruct (exec_joined w tr s Hexec) as (_ & _ & Hfound & Hidx & _);
    [right; eauto |].
  apply exec_inv in Hexec as [_ _ _ Hm]. rewrite Hmain in Hm.
  destruct Hm as (_ & Hms & _).
  repeat split; try done.
  rewrite Hms. unfold report. simpl. by rewrite Hidx, Hfound.
Qed.

(** C8.  Two runs of [BrokenFinder().check()] on the same file system,
    whatever the interleaving of the two threads in each, end with the
    same missing names mapped to the same requirers. *)
Theorem check_idempotent w tr1 s1 ms1 tr2 s2 ms2 :
  exec w tr1 s1 -> pc_check s1 = MDone ms1 ->
  exec w tr2 s2 -> pc_check s2 = MDone ms2 ->
  ms1 = ms2 /\ missing_set s1 = missing_set s2.
Proof.
  intros Hexec1 Hmain1 Hexec2 Hmain2.
  destruct (exec_done w tr1 s1 ms1 Hexec1 Hmain1) as (Hidx1 & _ & ->).
  destruct (exec_done w tr2 s2 ms2 Hexec2 Hmain2) as (Hidx2 & _ & ->).
  split; [done |]. unfold missing_set. by rewrite Hmain1, Hmain2, Hidx1, Hidx2.
Qed.

Lemma check_idempotent_witness :
  missing_set (snd (run_of w_demo sched_sequential)) =
  missing_set (snd (run_of w_demo sched_interleaved)) /\
  fst (run_of w_demo sched_sequential) ≠ fst (run_of w_demo sched_interleaved).
Proof.
  split; [| by vm_compute].
  refine (proj2 (check_idempotent w_demo
                   (fst (run_of w_demo sched_sequential))
                   (snd (run_of w_demo sched_sequential))
                   {["libbaz.so.2"; "libqux.so"]}
                   (fst (run_of w_demo sched_interleaved))
                   (snd (run_of w_demo sched_interleaved))
                   {["libbaz.so.2"; "libqux.so"]} _ _ _ _)).
  - apply exec_run_of. vm_compute. eauto.
  - vm_compute. reflexivity.
  - apply exec_run_of. vm_compute. eauto.
  - vm_compute. reflexivity.
Defined.

(** ** The naming pattern *)

(** C3.  The second alternative of [somatching] has no end anchor:
    a name that merely contains [.so.] followed by a digit is accepted.
    [libfoo.so.1.debug] under a library root does not end in [.so] or in
    [.so] and version components, and its name is in [found] at the end
    of the run. *)
Theorem debug_file_counts_as_library :
  so_name "libfoo.so.1.debug" = false /\
  Re.re_match (unicode_decimal w_debug) somatching "libfoo.so.1.debug" = true /\
  pc_check (snd (run_of w_debug sched_debug)) = MDone ∅ /\
  "libfoo.so.1.debug" ∈ found (self (snd (run_of w_debug sched_debug))).
Proof. repeat split; vm_compute; reflexivity. Qed.

(** ** Symbolic links and the two kinds of roots *)

Lemma elem_of_puts tr p : EvPut p ∈ tr <-> p ∈ puts tr.
Proof.
  unfold puts. rewrite elem_of_flat_map. split.
  - intros H. exists (EvPut p). split; [done | by left].
  - intros (ev & Hev & Hp). by destruct ev; simpl in Hp;
      try apply elem_of_nil in Hp; try apply list_elem_of_singleton in Hp as ->.
Qed.

Lemma exec_puts_submitted w tr s p : exec w tr s -> p ∈ puts tr -> p ∈ submitted w.
Proof.
  intros [(done_ & Hscan & _ & Hputs & _) _ _ _]%exec_inv Hp.
  unfold submitted. rewrite Hscan, yields_app, Hputs. set_solver.
Qed.

Lemma exec_collects_submitted w tr s p :
  exec w tr s -> p ∈ collects tr -> p ∈ submitted w.
Proof.
  intros [tl Htl]%exec_collects_prefix Hp. rewrite Htl. set_solver.
Qed.

(** C4 as stated fails where the roots overlap: [/usr/bin/libx.so] is a
    symbolic link under the binary root [/usr/bin], and its name is in
    [found] at the end of the run, put there by the library scan of
    [/usr]. *)
Lemma symlink_under_both_roots_is_available :
  ("/usr/bin", [], ["libx.so"])
    ∈ walk_multi_dir w_overlap (bindirs (BrokenFinder_init w_overlap)) /\
  islink w_overlap (path_join "/usr/bin" "libx.so") = true /\
  exec w_overlap (fst (run_of w_overlap sched_overlap))
                 (snd (run_of w_overlap sched_overlap)) /\
  pc_check (snd (run_of w_overlap sched_overlap)) = MDone ∅ /\
  ~ ("libx.so" ∉ found (self (snd (run_of w_overlap sched_overlap)))).
Proof.
  split; [vm_compute; left |].
  split; [vm_compute; reflexivity |].
  split; [apply exec_run_of; vm_compute; eauto |].
  split; [vm_compute; reflexivity |].
  intros Hnot. apply Hnot. vm_compute. reflexivity.
Qed.

(** C4, amended.  A symbolic link listed by the walk is never put on the
    queue and never handed to the extractor, under whichever root it
    lies.  If it lies under a library root and matches the pattern, its
    name is in the Available Set.  The binary scan adds nothing to
    [found]: the name of a link under a binary root is in [found] only
    if a matching file of that name is listed under a library root. *)
Theorem symlinks_never_extracted w tr s dpath dnames fnames fname :
  exec w tr s ->
  fname ∈ fnames ->
  islink w (path_join dpath fname) = true ->
  (EvPut (path_join dpath fname) ∉ tr) /\
  (EvCollect (path_join dpath fname) ∉ tr) /\
  (path_join dpath fname ∉ submitted w) /\
  ((dpath, dnames, fnames) ∈ walk_multi_dir w (libdirs (BrokenFinder_init w)) ->
   Re.re_match (unicode_decimal w) somatching fname = true ->
   fname ∈ available w /\
   (forall missing_libs, pc_check s = MDone missing_libs -> fname ∈ found (self s))) /\
  adds (enumerate_binaries w (bindirs (BrokenFinder_init w))) = [] /\
  ((dpath, dnames, fnames) ∈ walk_multi_dir w (bindirs (BrokenFinder_init w)) ->
   fname ∈ found (self s) ->
   exists dpath' dnames' fnames',
     (dpath', dnames', fnames') ∈ walk_multi_dir w (libdirs (BrokenFinder_init w)) /\
     fname ∈ fnames' /\ Re.re_match (unicode_decimal w) somatching fname = true).
Proof.
  intros Hexec Hf Hlink.
  assert (Hsub : path_join dpath fname ∉ submitted w).
  { intros Hin%submitted_not_link. congruence. }
  split; [| split; [| split; [| split; [| split]]]].
  - intros Hin%elem_of_puts. by eapply Hsub, exec_puts_submitted.
  - intros Hin%elem_of_collects. by eapply Hsub, exec_collects_submitted.
  - done.
  - intros Hwalk Hmatch.
    assert (fname ∈ available w) as Hav
      by (apply elem_of_available; by exists dpath, dnames, fnames).
    split; [done |]. intros ms Hmain.
    by destruct (exec_done w tr s ms Hexec Hmain) as (_ & -> & _).
  - apply adds_enumerate_binaries.
  - intros _ Hfound. apply elem_of_available.
    by eapply exec_found_subseteq.
Qed.

Lemma symlinks_never_extracted_witness :
  (EvCollect "/usr/lib/libfoo.so" ∉ fst (run_of w_demo sched_sequential)) /\
  "libfoo.so" ∈ available w_demo.
Proof.
  assert (Hexec : exec w_demo (fst (run_of w_demo sched_sequential))
                              (snd (run_of w_demo sched_sequential))).
  { apply exec_run_of. vm_compute. eauto. }
  assert (Hf : "libfoo.so" ∈ ["libfoo.so.1"; "libbar.so"; "libfoo.so"; "README"]).
  { by repeat constructor. }
  assert (Hlink : islink w_demo (path_join "/usr/lib" "libfoo.so") = true).
  { vm_compute. reflexivity. }
  pose proof (symlinks_never_extracted w_demo _ _ "/usr/lib" [] _ "libfoo.so"
                Hexec Hf Hlink) as (_ & Hcol & _ & Hlib & _).
  split; [exact Hcol |].
  assert (Hwalk : ("/usr/lib", [], ["libfoo.so.1"; "libbar.so"; "libfoo.so"; "README"])
                    ∈ walk_multi_dir w_demo (libdirs (BrokenFinder_init w_demo))).
  { vm_compute. right. left. }
  assert (Hmatch : Re.re_match (unicode_decimal w_demo) somatching "libfoo.so" = true).
  { vm_compute. reflexivity. }
  exact (proj1 (Hlib Hwalk Hmatch)).
Defined.

(** C9.  At every moment of every run, [found] only holds names that
    match the pattern and are listed under a library root, so a name
    listed under a binary root only is never in it; and at the end a
    required name that no library root offers is in the Missing Set. *)
Theorem only_library_roots_populate_found w tr s :
  exec w tr s ->
  (forall name,
      name ∈ found (self s) ->
      exists dpath dnames fnames,
        (dpath, dnames, fnames) ∈ walk_multi_dir w (libdirs (BrokenFinder_init w)) /\
        name ∈ fnames /\ Re.re_match (unicode_decimal w) somatching name = true) /\
  (forall missing_libs name p,
      pc_check s = MDone missing_libs ->
      p ∈ submitted w -> name ∈ needed_names w p ->
      ~ (exists dpath dnames fnames,
            (dpath, dnames, fnames) ∈ walk_multi_dir w (libdirs (BrokenFinder_init w)) /\
            name ∈ fnames /\ Re.re_match (unicode_decimal w) somatching name = true) ->
      name ∈ missing_libs).
Proof.
  intros Hexec. split.
  - intros name Hin. apply elem_of_available. by eapply exec_found_subseteq.
  - intros ms name p Hmain Hp Hname Hnolib.
    destruct (exec_done w tr s ms Hexec Hmain) as (_ & _ & ->).
    destruct (exec_joined w tr s Hexec) as (_ & _ & _ & _ & Hok & _);
      [right; eauto |].
    apply elem_of_difference. split.
    + unfold final_index. unfold final_run in *.
      rewrite (run_worker_spec _ _ _ _ Hok). simpl.
      rewrite dom_add_edges, elem_of_union, elem_of_list_to_set. right.
      apply list_elem_of_In, in_map_iff. exists (name, p). split; [done |].
      apply list_elem_of_In, elem_of_flat_map. exists p. split; [done |].
      unfold edges_of. apply list_elem_of_In, in_map_iff. exists name.
      split; [done |]. by apply list_elem_of_In.
    + by intros Hav%elem_of_available.
Qed.

Lemma only_library_roots_populate_found_witness :
  "libonly.so" ∈ ["libonly.so"; "app"] /\
  pc_check (snd (run_of w_binlib sched_binlib)) = MDone {["libonly.so"]} /\
  "libonly.so" ∈ ({["libonly.so"]} : gset string).
Proof.
  assert (Hexec : exec w_binlib (fst (run_of w_binlib sched_binlib))
                                (snd (run_of w_binlib sched_binlib))).
  { apply exec_run_of. vm_compute. eauto. }
  assert (Hmain : pc_check (snd (run_of w_binlib sched_binlib)) = MDone {["libonly.so"]}).
  { vm_compute. reflexivity. }
  split; [left |]. split; [exact Hmain |].
  refine (proj2 (only_library_roots_populate_found w_binlib _ _ Hexec)
            _ "libonly.so" "/bin/app" Hmain _ _ _).
  - vm_compute. do 2 right. left.
  - vm_compute. left.
  - intros (dpath & dnames & fnames & Hwalk & Hin & _).
    vm_compute in Hwalk. apply list_elem_of_singleton in Hwalk.
    injection Hwalk as _ _ ->.
    by apply list_elem_of_singleton in Hin.
Defined.

(** ** Failures of the extractor *)

Lemma with_same_index b : with_lib2required_by (lib2required_by b) b = b.
Proof. by destruct b. Qed.

Section OneFile.

Variables (w : World) (sofile : string).


(** What leaves [collect_needed], by cases on what went wrong where. *)
Lemma propagates_cases :
  propagates w sofile =
  match open_rb w sofile with
  | Raises PermissionError => None
  | Raises e => Some e
  | Ok f =>
      match parse_raises f with
      | Some (OtherError name) => Some (OtherError name)
      | _ => None
      end
  end.
Proof.
  unfold propagates, collect_needed, parse_raises, ELFFile.
  destruct (open_rb w sofile) as [[ss | e] | e]; simpl.
  - rewrite for_sections_spec. by destruct (sections_raise ss) as [[| |name] |].
  - by destruct e.
  - by destruct e.
Qed.

(** C5, amended.  An [ELFError] raised while an opened file is parsed
    never leaves [collect_needed] and prints nothing.  When it is
    [ELFFile] itself that rejects the file, the index is left as it was,
    and the worker goes on to [task_done] and to the next item.  Only
    [ELFError] is caught there: what a malformed object makes the parser
    raise otherwise is the subject of C10. *)
Theorem elf_error_is_silent f :
  open_rb w sofile = Ok f -> parse_raises f = Some ELFError ->
  propagates w sofile = None /\
  warnings_of w sofile = [] /\
  (forall idx err, snd (fst (collect_needed w sofile (idx, err))) = err) /\
  (ELFFile f = Raises ELFError ->
   edges_of w sofile = [] /\
   (forall idx err, collect_needed w sofile (idx, err) = ((idx, err), None)) /\
   (forall rest st, run_worker w (sofile :: rest) st = run_worker w rest st) /\
   (forall b m err,
       step w Worker (MkState b m (WCollect sofile) err) =
       Some (EvCollect sofile, MkState b m WTaskDone err))).
Proof.
  intros Hopen Hparse.
  assert (Hp : propagates w sofile = None).
  { by rewrite propagates_cases, Hopen, Hparse. }
  assert (Hw : warnings_of w sofile = []).
  { unfold warnings_of, collect_needed. rewrite Hopen.
    unfold parse_raises in Hparse. destruct (ELFFile f) as [ss | e]; simpl.
    - rewrite for_sections_spec, Hparse. done.
    - by injection Hparse as ->. }
  split; [done |]. split; [done |]. split.
  { intros idx err. by rewrite collect_needed_spec, Hw, app_nil_r. }
  intros Helf.
  assert (He : edges_of w sofile = []).
  { unfold edges_of, needed_names. rewrite Hopen.
    unfold ELFFile in Helf. by rewrite Helf. }
  assert (Hc : forall idx err, collect_needed w sofile (idx, err) = ((idx, err), None)).
  { intros idx err. by rewrite collect_needed_spec, He, Hw, Hp, app_nil_r. }
  split; [done |]. split; [done |]. split.
  - intros rest [idx err]. by rewrite run_worker_cons, Hc.
  - intros b m err. rewrite step_collect, He, Hw, Hp, app_nil_r. simpl.
    by rewrite with_same_index.
Qed.

(** C6.  When [open] raises [PermissionError], [collect_needed] prints
    exactly one warning, adds no edge and returns normally: the worker
    goes on to [task_done] and to the next item. *)
Theorem permission_denied_warns_once :
  open_rb w sofile = Raises PermissionError ->
  edges_of w sofile = [] /\
  (forall idx err,
      collect_needed w sofile (idx, err) =
      ((idx, err ++ [Warn (permission_text sofile)]), None)) /\
  (forall rest idx err,
      run_worker w (sofile :: rest) (idx, err) =
      run_worker w rest (idx, err ++ [Warn (permission_text sofile)])) /\
  (forall b m err,
      step w Worker (MkState b m (WCollect sofile) err) =
      Some (EvCollect sofile,
            MkState b m WTaskDone (err ++ [Warn (permission_text sofile)]))).
Proof.
  intros Hopen.
  assert (Hc : forall idx err,
             collect_needed w sofile (idx, err) =
             ((idx, err ++ [Warn (permission_text sofile)]), None)).
  { intros idx err. unfold collect_needed. by rewrite Hopen. }
  assert (He : edges_of w sofile = []).
  { unfold edges_of, needed_names. by rewrite Hopen. }
  split; [done |]. split; [done |]. split.
  - intros rest idx err. by rewrite run_worker_cons, Hc.
  - intros b m err. unfold step, worker. cbn [self pc_check pc_worker stderr].
    by rewrite Hc, with_same_index.
Qed.


End OneFile.

Lemma elf_error_is_silent_witness :
  collect_needed w_demo "/bin/notes.txt" (∅, []) = ((∅, []), None).
Proof.
  assert (Hopen : open_rb w_demo "/bin/notes.txt" = Ok (Raises ELFError)).
  { vm_compute. reflexivity. }
  assert (Hparse : parse_raises (Raises ELFError) = Some ELFError).
  { reflexivity. }
  pose proof (elf_error_is_silent w_demo "/bin/notes.txt" _ Hopen Hparse)
    as (_ & _ & _ & Hnot).
  exact (proj1 (proj2 (Hnot eq_refl)) ∅ []).
Defined.

(** C5 as stated fails on a malformed object: [/bin/bad] opens, and
    its parse raises an exception that is not an [ELFError].  The
    exception leaves [collect_needed], the worker ends, and [check]
    waits at [join] with neither thread able to move.  And a parse
    that an [ELFError] ends half way leaves the edge read before it. *)
Lemma malformed_object_raises :
  open_rb w_malformed "/bin/bad" =
    Ok (Ok (Yield OtherSection (Raise (OtherError "ValueError")))) /\
  snd (collect_needed w_malformed "/bin/bad" (∅, [])) = Some (OtherError "ValueError") /\
  exec w_malformed (fst (run_of w_malformed sched_vanished))
                   (snd (run_of w_malformed sched_vanished)) /\
  pc_check (snd (run_of w_malformed sched_vanished)) = MJoin /\
  pc_worker (snd (run_of w_malformed sched_vanished)) = WDead (OtherError "ValueError") /\
  step w_malformed Main (snd (run_of w_malformed sched_vanished)) = None /\
  step w_malformed Worker (snd (run_of w_malformed sched_vanished)) = None /\
  (exists f, open_rb w_broken "/bin/half" = Ok f /\
             parse_raises f = Some ELFError /\
             edges_of w_broken "/bin/half" = [("liba.so", "/bin/half")]).
Proof.
  split; [vm_compute; reflexivity |].
  split; [vm_compute; reflexivity |].
  split; [apply exec_run_of; vm_compute; eauto |].
  do 4 (split; [vm_compute; reflexivity |]).
  eexists. split; [vm_compute; reflexivity |].
  split; vm_compute; reflexivity.
Qed.

Lemma permission_denied_warns_once_witness :
  collect_needed w_demo "/bin/secret" (∅, []) =
  ((∅, [Warn "Could not open /bin/secret; please check permissions"]), None).
Proof.
  assert (Hopen : open_rb w_demo "/bin/secret" = Raises PermissionError).
  { vm_compute. reflexivity. }
  exact (proj1 (proj2 (permission_denied_warns_once w_demo "/bin/secret" Hopen)) ∅ []).
Defined.


(** ** Requirement edges and their order *)

Lemma requirers_in_same_object name sofile names :
  requirers_in name (map (fun n => (n, sofile)) names) =
  replicate (length (filter (fun n => n = name) names)) sofile.
Proof.
  unfold requirers_in. induction names as [|n names IH]; [done |].
  simpl. rewrite !filter_cons. simpl.
  destruct (decide (n = name)); simpl; by rewrite IH.
Qed.

Lemma lookup_missing_set s missing_libs name :
  pc_check s = MDone missing_libs -> name ∈ missing_libs ->
  missing_set s !! name = Some (lib2required_by (self s) !!! name).
Proof.
  intros Hmain Hin. unfold missing_set. rewrite Hmain.
  apply elem_of_list_to_map_1.
  - assert (((fun lib => (lib, lib2required_by (self s) !!! lib))
               <$> elements missing_libs).*1 = elements missing_libs) as ->.
    { induction (elements missing_libs) as [|x l IH]; [done |].
      rewrite !fmap_cons, IH. done. }
    apply NoDup_elements.
  - apply list_elem_of_fmap. exists name. split; [done |].
    by apply elem_of_elements.
Qed.

(** C7.  A file that parses to its end adds one edge for each
    [DT_NEEDED] entry of its dynamic sections, in the order of the
    entries, so a name listed [k] times appends the file [k] times to
    that name's requirers.  At the end of the run the requirers of every
    name are the requirers among the edges of the submitted files, in
    the order of submission, and this is the list reported for a
    missing name. *)
Theorem requirers_in_order w tr s missing_libs :
  exec w tr s -> pc_check s = MDone missing_libs ->
  (forall sofile ss idx err,
      open_rb w sofile = Ok (Ok ss) -> sections_complete ss = true ->
      edges_of w sofile = map (fun n => (n, sofile)) (dt_needed_entries ss) /\
      collect_needed w sofile (idx, err) =
        ((add_edges (edges_of w sofile) idx, err), None) /\
      forall name,
        add_edges (edges_of w sofile) idx !!! name =
        idx !!! name ++
        replicate (length (filter (fun n => n = name) (dt_needed_entries ss))) sofile) /\
  (forall name,
      lib2required_by (self s) !!! name =
      requirers_in name (flat_map (edges_of w) (submitted w))) /\
  (forall name,
      name ∈ missing_libs ->
      missing_set s !! name =
        Some (requirers_in name (flat_map (edges_of w) (submitted w))) /\
      RequiredBy name (requirers_in name (flat_map (edges_of w) (submitted w)))
        ∈ stderr s).
Proof.
  intros Hexec Hmain.
  destruct (exec_joined w tr s Hexec) as (_ & _ & _ & Hidx & Hok & _ & Herr);
    [right; eauto |].
  assert (Hall : forall name,
             lib2required_by (self s) !!! name =
             requirers_in name (flat_map (edges_of w) (submitted w))).
  { intros name. rewrite Hidx. unfold final_index. unfold final_run in *.
    rewrite (run_worker_spec _ _ _ _ Hok). simpl.
    by rewrite lookup_add_edges, lookup_total_empty. }
  split; [| split].
  - intros sofile ss idx err Hopen Hcomplete.
    assert (He : edges_of w sofile = map (fun n => (n, sofile)) (dt_needed_entries ss)).
    { unfold edges_of, needed_names. rewrite Hopen.
      by rewrite needed_of_sections_complete. }
    split; [done |]. split.
    + rewrite collect_needed_spec. f_equal.
      * f_equal. unfold warnings_of, collect_needed, ELFFile. rewrite Hopen.
        rewrite for_sections_spec, sections_complete_raise by done.
        simpl. by rewrite app_nil_r.
      * rewrite propagates_cases, Hopen. unfold parse_raises, ELFFile.
        by rewrite sections_complete_raise.
    + intros name. by rewrite lookup_add_edges, He, requirers_in_same_object.
  - done.
  - intros name Hin. rewrite <- Hall. split.
    + by eapply lookup_missing_set.
    + rewrite Herr, Hmain, elem_of_app. right. apply elem_of_report_lines.
      split; [| done].
      apply exec_inv in Hexec as [_ _ _ Hm]. rewrite Hmain in Hm.
      destruct Hm as (_ & <- & _). done.
Qed.

Lemma requirers_in_order_witness :
  missing_set (snd (run_of w_twice sched_twice)) !! "libz.so" =
  Some ["/bin/a"; "/bin/a"; "/bin/b"].
Proof.
  assert (Hexec : exec w_twice (fst (run_of w_twice sched_twice))
                               (snd (run_of w_twice sched_twice))).
  { apply exec_run_of. vm_compute. eauto. }
  assert (Hmain : pc_check (snd (run_of w_twice sched_twice)) =
                  MDone {["libm.so"; "libz.so"]}).
  { vm_compute. reflexivity. }
  pose proof (requirers_in_order w_twice _ _ _ Hexec Hmain) as (_ & _ & Hrep).
  assert (Hin : "libz.so" ∈ ({["libm.so"; "libz.so"]} : gset string)).
  { vm_compute. reflexivity. }
  rewrite (proj1 (Hrep "libz.so" Hin)). vm_compute. reflexivity.
Defined.

(** * Further properties of the code *)

(** ** The pattern *)

Lemma endswith_app u suffix : endswith (u +:+ suffix) suffix = true.
Proof.
  induction u as [|c u IH]; str_simpl.
  - destruct suffix as [|a suffix]; [done |].
    cbn [endswith]. by rewrite String.eqb_refl.
  - cbn [endswith]. rewrite IH. apply orb_true_r.
Qed.

(** X2.  A name that is accepted without ending in [.so] is accepted
    through the versioned alternative, which looks no further than the
    first digit after [.so.]: whatever is appended to such a name, the
    result is accepted too.  This holds for every table of decimal
    digits. *)
Theorem accepted_whatever_follows dec fname rest :
  Re.re_match dec somatching fname = true ->
  endswith fname ".so" = false ->
  Re.re_match dec somatching (fname +:+ rest) = true.
Proof.
  intros [(u & -> & _) | (u & t & tl & -> & Hu & Hd)]%somatching_spec Hend.
  - by rewrite endswith_app in Hend.
  - apply somatching_spec. right. exists u, t, (tl +:+ rest).
    split; [| done]. by rewrite !str_app_assoc.
Qed.

Lemma accepted_whatever_follows_witness :
  Re.re_match arabic_indic somatching ("libc.so.6" +:+ "-gdb.py") = true.
Proof.
  apply accepted_whatever_follows; vm_compute; reflexivity.
Defined.

(** ** What a finished run has scanned and extracted *)

(** X1.  At the end of a run [found] holds exactly the names listed as
    files under a library root (symbolic links included) that end in
    [.so] after a newline-free stem, or in which a newline-free stem is
    followed by [.so.] and a decimal digit: an ASCII digit or a
    character that Python's Unicode tables class as a decimal digit. *)
Theorem found_at_end_exactly w tr s missing_libs name :
  exec w tr s -> pc_check s = MDone missing_libs ->
  (name ∈ found (self s) <->
   (exists dpath dnames fnames,
       (dpath, dnames, fnames) ∈ walk_multi_dir w (libdirs (BrokenFinder_init w)) /\
       name ∈ fnames) /\
   ((exists u, name = u +:+ ".so" /\ no_newline u = true) \/
    (exists u t rest,
        name = u +:+ ".so." +:+ t +:+ rest /\
        no_newline u = true /\ Re.is_decimal (unicode_decimal w) t = true))).
Proof.
  intros Hexec Hmain.
  destruct (exec_done w tr s missing_libs Hexec Hmain) as (_ & -> & _).
  rewrite elem_of_available, <- somatching_spec. split.
  - intros (dpath & dnames & fnames & Hwalk & Hin & Hm). eauto 10.
  - intros [(dpath & dnames & fnames & Hwalk & Hin) Hm]. eauto 10.
Qed.

Lemma found_at_end_exactly_witness :
  libfoo_so_arabic_one ∈ found (self (snd (run_of w_arabic sched_debug))) <->
  (exists dpath dnames fnames,
      (dpath, dnames, fnames)
        ∈ walk_multi_dir w_arabic (libdirs (BrokenFinder_init w_arabic)) /\
      libfoo_so_arabic_one ∈ fnames) /\
  ((exists u, libfoo_so_arabic_one = u +:+ ".so" /\ no_newline u = true) \/
   (exists u t rest,
       libfoo_so_arabic_one = u +:+ ".so." +:+ t +:+ rest /\
       no_newline u = true /\ Re.is_decimal (unicode_decimal w_arabic) t = true)).
Proof.
  assert (Hexec : exec w_arabic (fst (run_of w_arabic sched_debug))
                                (snd (run_of w_arabic sched_debug))).
  { apply exec_run_of. vm_compute. eauto. }
  assert (Hmain : pc_check (snd (run_of w_arabic sched_debug)) = MDone ∅).
  { vm_compute. reflexivity. }
  exact (found_at_end_exactly w_arabic _ _ _ libfoo_so_arabic_one Hexec Hmain).
Defined.

(** The name with the Arabic-Indic digit is in [found] at the end. *)
Example arabic_digit_name_is_found :
  libfoo_so_arabic_one ∈ found (self (snd (run_of w_arabic sched_debug))).
Proof. vm_compute. reflexivity. Qed.

(** X3.  Every file listed under a library root whose name has no
    newline and ends in [.so], or in [.so] followed by one or more
    groups of a dot and digits, is in [found] at the end of the run,
    whether it is a regular file or a symbolic link. *)
Theorem library_names_are_found w tr s missing_libs dpath dnames fnames fname :
  exec w tr s -> pc_check s = MDone missing_libs ->
  (dpath, dnames, fnames) ∈ walk_multi_dir w (libdirs (BrokenFinder_init w)) ->
  fname ∈ fnames ->
  so_name fname = true -> no_newline fname = true ->
  fname ∈ found (self s).
Proof.
  intros Hexec Hmain Hwalk Hin Hso Hnl.
  destruct (exec_done w tr s missing_libs Hexec Hmain) as (_ & -> & _).
  apply elem_of_available. exists dpath, dnames, fnames.
  split; [done |]. split; [done |]. by apply so_name_accepted.
Qed.

Lemma library_names_are_found_witness :
  "libfoo.so.1" ∈ found (self (snd (run_of w_demo sched_sequential))).
Proof.
  assert (Hexec : exec w_demo (fst (run_of w_demo sched_sequential))
                              (snd (run_of w_demo sched_sequential))).
  { apply exec_run_of. vm_compute. eauto. }
  assert (Hmain : pc_check (snd (run_of w_demo sched_sequential)) =
                  MDone {["libbaz.so.2"; "libqux.so"]}).
  { vm_compute. reflexivity. }
  assert (Hwalk : ("/usr/lib", [], ["libfoo.so.1"; "libbar.so"; "libfoo.so"; "README"])
                    ∈ walk_multi_dir w_demo (libdirs (BrokenFinder_init w_demo))).
  { vm_compute. right. left. }
  assert (Hin : "libfoo.so.1" ∈ ["libfoo.so.1"; "libbar.so"; "libfoo.so"; "README"]).
  { left. }
  assert (Hso : so_name "libfoo.so.1" = true).
  { vm_compute. reflexivity. }
  assert (Hnl : no_newline "libfoo.so.1" = true).
  { vm_compute. reflexivity. }
  exact (library_names_are_found w_demo _ _ _ _ _ _ _ Hexec Hmain Hwalk Hin Hso Hnl).
Defined.

(** X4.  In a finished run the files handed to [collect_needed] are
    exactly the paths that are not symbolic links and are either a
    pattern-matching file name joined to its directory under a library
    root, or any file name joined to its directory under a binary
    root. *)
Theorem extracted_paths_exactly w tr s missing_libs p :
  exec w tr s -> pc_check s = MDone missing_libs ->
  (EvCollect p ∈ tr <->
   islink w p = false /\
   ((exists dpath dnames fnames fname,
        (dpath, dnames, fnames) ∈ walk_multi_dir w (libdirs (BrokenFinder_init w)) /\
        fname ∈ fnames /\ Re.re_match (unicode_decimal w) somatching fname = true /\
        p = path_join dpath fname) \/
    (exists dpath dnames fnames fname,
        (dpath, dnames, fnames) ∈ walk_multi_dir w (bindirs (BrokenFinder_init w)) /\
        fname ∈ fnames /\ p = path_join dpath fname))).
Proof.
  intros Hexec Hmain.
  destruct (exec_joined w tr s Hexec) as (_ & Hcol & _); [right; eauto |].
  rewrite elem_of_collects, Hcol. unfold submitted, scan_actions.
  rewrite yields_app, elem_of_app, elem_of_yields_shared_libs, elem_of_yields_binaries.
  split.
  - intros [(dpath & dnames & fnames & fname & Hw & Hf & Hm & -> & Hl)
           | (dpath & dnames & fnames & fname & Hw & Hf & -> & Hl)].
    + split; [done |]. left. eauto 10.
    + split; [done |]. right. eauto 10.
  - intros [Hl [(dpath & dnames & fnames & fname & Hw & Hf & Hm & ->)
               | (dpath & dnames & fnames & fname & Hw & Hf & ->)]].
    + left. eauto 10.
    + right. eauto 10.
Qed.

Lemma extracted_paths_exactly_witness :
  EvCollect "/bin/app" ∈ fst (run_of w_demo sched_sequential) <->
  islink w_demo "/bin/app" = false /\
  ((exists dpath dnames fnames fname,
       (dpath, dnames, fnames)
         ∈ walk_multi_dir w_demo (libdirs (BrokenFinder_init w_demo)) /\
       fname ∈ fnames /\ Re.re_match (unicode_decimal w_demo) somatching fname = true /\
       "/bin/app" = path_join dpath fname) \/
   (exists dpath dnames fnames fname,
       (dpath, dnames, fnames)
         ∈ walk_multi_dir w_demo (bindirs (BrokenFinder_init w_demo)) /\
       fname ∈ fnames /\ "/bin/app" = path_join dpath fname)).
Proof.
  assert (Hexec : exec w_demo (fst (run_of w_demo sched_sequential))
                              (snd (run_of w_demo sched_sequential))).
  { apply exec_run_of. vm_compute. eauto. }
  assert (Hmain : pc_check (snd (run_of w_demo sched_sequential)) =
                  MDone {["libbaz.so.2"; "libqux.so"]}).
  { vm_compute. reflexivity. }
  exact (extracted_paths_exactly w_demo _ _ _ "/bin/app" Hexec Hmain).
Defined.

(** X5.  At every moment the files handed to [collect_needed] are an
    initial segment of the paths put on the queue, and these are an
    initial segment of the paths the two generators yield: the queue is
    served first in, first out, no item is skipped, repeated or
    extracted before it was submitted. *)
Theorem extraction_follows_submission w tr s :
  exec w tr s ->
  collects tr `prefix_of` puts tr /\
  puts tr `prefix_of` submitted w /\
  puts tr = collects tr ++ held (pc_worker s) ++ items (job_queue (self s)).
Proof.
  intros [(done_ & Hscan & _ & Hputs & Hyields) _ _ _]%exec_inv.
  rewrite <- Hputs. split; [| split].
  - rewrite Hyields. by eexists.
  - unfold submitted. rewrite Hscan, yields_app. by eexists.
  - done.
Qed.

Lemma extraction_follows_submission_witness :
  puts (fst (run_of w_demo sched_interleaved)) =
  collects (fst (run_of w_demo sched_interleaved))
  ++ held (pc_worker (snd (run_of w_demo sched_interleaved)))
  ++ items (job_queue (self (snd (run_of w_demo sched_interleaved)))).
Proof.
  assert (Hexec : exec w_demo (fst (run_of w_demo sched_interleaved))
                              (snd (run_of w_demo sched_interleaved))).
  { apply exec_run_of. vm_compute. eauto. }
  exact (proj2 (proj2 (extraction_follows_submission w_demo _ _ Hexec))).
Defined.

(** ** What a step changes *)

(** The effect of one step on the finder and on stderr, read off the
    event it produces. *)
Lemma step_effect w t s ev s' :
  step w t s = Some (ev, s') ->
  found (self s') =
    match ev with EvAdd fname => {[fname]} ∪ found (self s) | _ => found (self s) end /\
  lib2required_by (self s') =
    match ev with
    | EvCollect p => add_edges (edges_of w p) (lib2required_by (self s))
    | _ => lib2required_by (self s)
    end /\
  bindirs (self s') = bindirs (self s) /\
  libdirs (self s') = libdirs (self s) /\
  stderr s' =
    stderr s ++ match ev with
                | EvCollect p => warnings_of w p
                | EvRead => snd (report (self s))
                | _ => []
                end.
Proof.
  destruct s as [b m wk err]. destruct t.
  - unfold step, check.
    destruct m as [[|[fname | fullname] todo] | | | missing_libs]; simpl.
    + intros [= <- <-]. simpl. by rewrite app_nil_r.
    + intros [= <- <-]. simpl. by rewrite app_nil_r.
    + intros [= <- <-]. simpl. by rewrite app_nil_r.
    + destruct (Nat.eqb _ _); [| done].
      intros [= <- <-]. simpl. by rewrite app_nil_r.
    + intros [= <- <-]. done.
    + done.
  - destruct wk as [| item | | e].
    + unfold step, worker. simpl.
      destruct (items (job_queue b)); [done |].
      intros [= <- <-]. simpl. by rewrite app_nil_r.
    + rewrite step_collect. intros [= <- <-]. done.
    + unfold step, worker. simpl.
      intros [= <- <-]. simpl. by rewrite app_nil_r.
    + done.
Qed.

(** X9.  No step ever forgets anything: [found] only gains names, the
    requirers of every name are only extended at the end, stderr is
    only appended to, and the two lists of roots never change. *)
Theorem steps_only_add w t s ev s' :
  step w t s = Some (ev, s') ->
  found (self s) ⊆ found (self s') /\
  (forall name,
      lib2required_by (self s) !!! name `prefix_of` lib2required_by (self s') !!! name) /\
  dom (lib2required_by (self s)) ⊆ dom (lib2required_by (self s')) /\
  stderr s `prefix_of` stderr s' /\
  bindirs (self s') = bindirs (self s) /\
  libdirs (self s') = libdirs (self s).
Proof.
  intros (Hf & Hi & Hb & Hl & He)%step_effect.
  rewrite Hf, Hi, He. repeat split; try done.
  - destruct ev; set_solver.
  - intros name. destruct ev; try done.
    rewrite lookup_add_edges. by eexists.
  - destruct ev; try done. rewrite dom_add_edges. set_solver.
  - by eexists.
Qed.

Lemma steps_only_add_witness :
  stderr (snd (run_of w_demo sched_to_join))
    `prefix_of` stderr (snd (run_of w_demo sched_sequential)).
Proof.
  assert (Hstep : step w_demo Main (snd (run_of w_demo sched_to_join)) =
                  Some (EvRead, snd (run_of w_demo sched_sequential))).
  { vm_compute. reflexivity. }
  exact (proj1 (proj2 (proj2 (proj2 (steps_only_add w_demo _ _ _ _ Hstep))))).
Defined.

(** ** The index at every moment *)

Lemma exec_index w tr s :
  exec w tr s ->
  lib2required_by (self s) = add_edges (flat_map (edges_of w) (collects tr)) ∅.
Proof.
  induction 1 as [| tr s t ev s' _ IH Hstep]; [done |].
  apply step_effect in Hstep as (_ & -> & _).
  rewrite collects_snoc, flat_map_app, add_edges_app, <- IH.
  destruct ev; try done. simpl. by rewrite app_nil_r.
Qed.


Lemma elem_of_requirers_in name p edges :
  p ∈ requirers_in name edges <-> (name, p) ∈ edges.
Proof.
  unfold requirers_in. rewrite list_elem_of_In, in_map_iff. split.
  - intros ([n q] & <- & [Hn Hin]%list_elem_of_In%list_elem_of_filter).
    simpl in *. by subst.
  - intros Hin. exists (name, p). split; [done |].
    by apply list_elem_of_In, list_elem_of_filter.
Qed.

Lemma elem_of_edges w name p l :
  (name, p) ∈ flat_map (edges_of w) l <-> p ∈ l /\ name ∈ needed_names w p.
Proof.
  rewrite elem_of_flat_map. unfold edges_of. split.
  - intros (q & Hq & (n & [= <- <-] & Hn)%list_elem_of_In%in_map_iff).
    by apply list_elem_of_In in Hn.
  - intros [Hp Hn]. exists p. split; [done |].
    apply list_elem_of_In, in_map_iff. exists name. by rewrite <- list_elem_of_In.
Qed.

(** X7.  At every moment every key of the index has at least one
    requirer, and every requirer of a name is a file that was handed to
    [collect_needed], lists that name among its [DT_NEEDED] entries and
    is not a symbolic link. *)
Theorem index_entries_are_justified w tr s name :
  exec w tr s ->
  name ∈ dom (lib2required_by (self s)) ->
  lib2required_by (self s) !!! name ≠ [] /\
  forall p,
    p ∈ lib2required_by (self s) !!! name ->
    EvCollect p ∈ tr /\ name ∈ needed_names w p /\ islink w p = false.
Proof.
  intros Hexec. rewrite (exec_index w tr s Hexec).
  rewrite dom_add_edges, lookup_add_edges, lookup_total_empty, dom_empty_L. simpl.
  intros [[]%not_elem_of_empty | Hin%elem_of_list_to_set]%elem_of_union.
  apply list_elem_of_In, in_map_iff in Hin as ([n p] & Hn & Hedge%list_elem_of_In).
  simpl in Hn. subst n. split.
  - intros Hnil. apply elem_of_requirers_in in Hedge.
    rewrite Hnil in Hedge. by apply elem_of_nil in Hedge.
  - intros q [Hq Hnq]%elem_of_requirers_in%elem_of_edges.
    split; [by apply elem_of_collects |]. split; [done |].
    eapply submitted_not_link, exec_collects_submitted; done.
Qed.

Lemma index_entries_are_justified_witness :
  lib2required_by (self (snd (run_of w_demo sched_interleaved))) !!! "libqux.so" ≠ [] /\
  forall p,
    p ∈ lib2required_by (self (snd (run_of w_demo sched_interleaved))) !!! "libqux.so" ->
    EvCollect p ∈ fst (run_of w_demo sched_interleaved) /\
    "libqux.so" ∈ needed_names w_demo p /\ islink w_demo p = false.
Proof.
  assert (Hexec : exec w_demo (fst (run_of w_demo sched_interleaved))
                              (snd (run_of w_demo sched_interleaved))).
  { apply exec_run_of. vm_compute. eauto. }
  assert (Hin : "libqux.so"
                  ∈ dom (lib2required_by (self (snd (run_of w_demo sched_interleaved))))).
  { vm_compute. reflexivity. }
  exact (index_entries_are_justified w_demo _ _ "libqux.so" Hexec Hin).
Defined.

(** ** How often a file is listed *)





(** ** A parse that breaks half way *)

Lemma needed_of_sections_prefix ss :
  needed_of_sections ss `prefix_of` dt_needed_entries ss.
Proof.
  unfold dt_needed_entries.
  induction ss as [| e | [tags |] rest IH]; simpl; try done.
  rewrite needed_of_tags_complete.
  apply prefix_app. destruct (tags_raise tags); [apply prefix_nil | done].
Qed.

(** X15.  Nothing is rolled back when a file breaks while it is parsed:
    whatever exception ends the parse, and whether it is swallowed,
    reported or leaves [collect_needed], the index has gained the
    [DT_NEEDED] entries read before it, which are an initial segment of
    the file's entries, and the requirers of every name are extended by
    this file only. *)
Theorem edges_before_a_failure_stay w sofile ss idx err :
  open_rb w sofile = Ok (Ok ss) ->
  fst (fst (collect_needed w sofile (idx, err))) =
    add_edges (map (fun n => (n, sofile)) (needed_of_sections ss)) idx /\
  needed_of_sections ss `prefix_of` dt_needed_entries ss /\
  (sections_raise ss = None -> needed_of_sections ss = dt_needed_entries ss) /\
  forall name,
    fst (fst (collect_needed w sofile (idx, err))) !!! name =
    idx !!! name
    ++ replicate (length (filter (fun n => n = name) (needed_of_sections ss))) sofile.
Proof.
  intros Hopen.
  assert (He : edges_of w sofile = map (fun n => (n, sofile)) (needed_of_sections ss)).
  { unfold edges_of, needed_names. by rewrite Hopen. }
  rewrite collect_needed_spec, He. simpl.
  split; [done |]. split; [apply needed_of_sections_prefix |]. split.
  - clear. unfold dt_needed_entries.
    induction ss as [| e | [tags |] rest IH]; simpl; try done.
    rewrite needed_of_tags_complete.
    destruct (tags_raise tags); [done |]. intros Hr. by rewrite IH.
  - intros name. by rewrite lookup_add_edges, requirers_in_same_object.
Qed.

Lemma edges_before_a_failure_stay_witness :
  fst (fst (collect_needed w_broken "/bin/half" (∅, []))) =
  add_edges [("liba.so", "/bin/half")] ∅.
Proof.
  assert (Hopen : open_rb w_broken "/bin/half" =
                  Ok (Ok (Yield (DynamicSection
                                   (Yield (Tag "DT_NEEDED" "liba.so") (Raise ELFError)))
                                (Yield (dynamic ["libb.so"]) Stop)))).
  { vm_compute. reflexivity. }
  exact (proj1 (edges_before_a_failure_stay w_broken "/bin/half" _ ∅ [] Hopen)).
Defined.

(** ** The queue and the end of the run *)

(** X8.  The counter [join] waits on always equals the number of items
    in the queue plus the item the worker has taken and not yet reported
    done.  So it is positive whenever the worker calls [task_done], and
    it is zero exactly when the queue is empty and the worker waits at
    [get]. *)
Theorem unfinished_tasks_counts w tr s :
  exec w tr s ->
  unfinished_tasks (job_queue (self s)) =
    length (items (job_queue (self s))) + owed (pc_worker s) /\
  (pc_worker s = WTaskDone -> 0 < unfinished_tasks (job_queue (self s))) /\
  (unfinished_tasks (job_queue (self s)) = 0 <->
   items (job_queue (self s)) = [] /\ pc_worker s = WGet).
Proof.
  intros [_ Hunf _ _]%exec_inv. split; [done |]. split.
  - intros Hw. rewrite Hunf, Hw. simpl. lia.
  - rewrite Hunf. split.
    + intros Hz. split.
      * destruct (items _); [done | simpl in Hz; lia].
      * apply owed_zero. lia.
    + by intros [-> ->].
Qed.

Lemma unfinished_tasks_counts_witness :
  unfinished_tasks (job_queue (self (snd (run_of w_vanished sched_vanished)))) =
  length (items (job_queue (self (snd (run_of w_vanished sched_vanished)))))
  + owed (pc_worker (snd (run_of w_vanished sched_vanished))).
Proof.
  assert (Hexec : exec w_vanished (fst (run_of w_vanished sched_vanished))
                                  (snd (run_of w_vanished sched_vanished))).
  { apply exec_run_of. vm_compute. eauto. }
  exact (proj1 (unfinished_tasks_counts w_vanished _ _ Hexec)).
Defined.




Lemma step_potential w t s ev s' :
  step w t s = Some (ev, s') -> S (potential s') = potential s.
Proof.
  destruct s as [b m wk err]. destruct t.
  - unfold step, check.
    destruct m as [[|[fname | fullname] todo] | | | missing_libs]; simpl.
    + intros [= <- <-]. unfold potential. simpl. lia.
    + intros [= <- <-]. unfold potential. simpl. lia.
    + intros [= <- <-]. unfold potential. simpl. rewrite length_app. simpl. lia.
    + destruct (Nat.eqb _ _); [| done].
      intros [= <- <-]. unfold potential. simpl. lia.
    + destruct (report b). intros [= <- <-]. unfold potential. simpl. lia.
    + done.
  - destruct wk as [| item | | e].
    + unfold step, worker. simpl.
      destruct (items (job_queue b)) as [|item rest] eqn:Hitems; [done |].
      intros [= <- <-]. unfold potential. simpl. rewrite Hitems. simpl. lia.
    + rewrite step_collect. intros [= <- <-]. unfold potential. simpl.
      destruct (propagates w item); lia.
    + unfold step, worker. simpl.
      intros [= <- <-]. unfold potential. simpl. lia.
    + done.
Qed.

Lemma exec_potential w tr s :
  exec w tr s -> length tr + potential s = run_length w.
Proof.
  induction 1 as [| tr s t ev s' _ IH Hstep].
  - unfold potential, run_length, submitted. simpl. lia.
  - apply step_potential in Hstep. rewrite length_app. simpl. lia.
Qed.

(** X11.  Whatever the interleaving of the two threads, an execution
    never has more events than the scan has actions, plus three for
    each submitted path, plus three; and a run that prints its report
    has exactly that many. *)
Theorem executions_are_bounded w tr s :
  exec w tr s ->
  length tr <= run_length w /\
  ((exists missing_libs, pc_check s = MDone missing_libs) -> length tr = run_length w).
Proof.
  intros Hexec. pose proof (exec_potential w tr s Hexec) as Hpot.
  split; [lia |]. intros Hdone.
  destruct (exec_joined w tr s Hexec) as (_ & _ & _ & _ & _ & (Hw & Hi & _) & _);
    [by right |].
  destruct Hdone as [ms Hmain].
  unfold potential in Hpot. rewrite Hmain, Hw, Hi in Hpot. simpl in Hpot. lia.
Qed.

Lemma executions_are_bounded_witness :
  length (fst (run_of w_demo sched_interleaved)) <= run_length w_demo.
Proof.
  assert (Hexec : exec w_demo (fst (run_of w_demo sched_interleaved))
                              (snd (run_of w_demo sched_interleaved))).
  { apply exec_run_of. vm_compute. eauto. }
  exact (proj1 (executions_are_bounded w_demo _ _ Hexec)).
Defined.


(** ** What is printed *)





(** ** The roots *)

Lemma split_cons sep s : exists h t, split sep s = h :: t.
Proof.
  induction s as [|c s (h & t & IH)]; simpl; [eauto |].
  rewrite IH. destruct (Ascii.eqb c sep); eauto.
Qed.

Lemma str_join_cons_char sep c h t :
  str_join sep (String c h :: t) = String c (str_join sep (h :: t)).
Proof. by destruct t. Qed.

Lemma str_join_cons_cons sep x y l :
  str_join sep (x :: y :: l) = x +:+ sep +:+ str_join sep (y :: l).
Proof. reflexivity. Qed.

Lemma join_split sep s : str_join (String sep "") (split sep s) = s.
Proof.
  induction s as [|c s IH]; [done |].
  cbn [split]. destruct (split_cons sep s) as (h & t & Hs). rewrite Hs in *.
  destruct (Ascii.eqb_spec c sep) as [-> |].
  - rewrite str_join_cons_cons, IH. by str_simpl.
  - by rewrite str_join_cons_char, IH.
Qed.

Lemma split_pieces sep s piece :
  piece ∈ split sep s -> has_char sep piece = false.
Proof.
  revert piece. induction s as [|c s IH]; intros piece; simpl.
  - by intros ->%list_elem_of_singleton.
  - destruct (split_cons sep s) as (h & t & Hs). rewrite Hs in *.
    destruct (Ascii.eqb_spec c sep) as [-> | Hne].
    + intros [-> | Hin]%elem_of_cons; [done | by apply IH].
    + intros [-> | Hin]%elem_of_cons.
      * simpl. rewrite (IH h) by left.
        by destruct (Ascii.eqb_spec c sep).
      * apply IH. by right.
Qed.

(** X14.  [__init__] scans every entry of [PATH] (or of [/usr/bin] when
    [PATH] is unset), in order, empty entries included: the binary
    roots are never an empty list, none contains a colon, and joined by
    colons they give [PATH] back.  The library roots are [/usr], with
    [/opt] after it when that exists. *)
Theorem roots_of_init w :
  bindirs (BrokenFinder_init w) ≠ [] /\
  str_join ":" (bindirs (BrokenFinder_init w)) = default "/usr/bin" (environ_PATH w) /\
  (forall d, d ∈ bindirs (BrokenFinder_init w) -> has_char ":" d = false) /\
  (environ_PATH w = None -> bindirs (BrokenFinder_init w) = ["/usr/bin"]) /\
  libdirs (BrokenFinder_init w) =
    (if path_exists w "/opt" then ["/usr"; "/opt"] else ["/usr"]).
Proof.
  simpl. split; [| split; [| split; [| split]]].
  - by destruct (split_cons ":" (default "/usr/bin" (environ_PATH w))) as (h & t & ->).
  - apply join_split.
  - intros d. apply split_pieces.
  - by intros ->.
  - by destruct (path_exists w "/opt").
Qed.
